(** * dj-track-id: window planning, chunk cache, recognition gateway,
      scheduling and track aggregation

    A shallow embedding of [chunker.py], [store.py], [shazam_recognizer.py],
    [pipeline.py] and the video id of [input_resolver.py], and the
    properties of the engine proved on it.

    Modelling conventions.
    - A Python [float] is modelled by the rational number it denotes ([Q]).
      Comparisons, [min] and [max] are exact on such numbers; [/ 3.0] and
      [/ 100.0] are exact divisions.  Rounding, infinities and NaN are outside
      the model.  Two rationals denote the same float when they are [Qeq].
    - A Python [int] is a [Z].
    - A decoded JSON document is a [pyval]; a JSON object is a finite map from
      strings ([gmap string pyval]).
    - [tracks], the insertion-ordered dict of [run_pipeline], is an
      association list in insertion order.
    - The SQLite table [chunk_cache] is a finite map from its primary key to
      the nullable [shazam_json] column.
    - An exception is the [Raise] outcome of the [exc] monad.
    - The process environment is a finite map from names to strings;
      [str.strip] is a parameter of the definitions that call it. *)

From Stdlib Require Import ZArith QArith Qround Lqa Lia.
From Stdlib Require Import Sorting.Sorted Sorting.Permutation.
From Stdlib Require Import DecimalString.
From stdpp Require Import base option list gmap strings.
From Equations Require Import Equations.

Set Default Proof Using "Type".

(** ** Python numbers and values *)

Module Py.

(** [a < b] on floats, as a boolean. *)
Definition Qltb (a b : Q) : bool := negb (Qle_bool b a).

(** The builtin [min(a, b)]: the first argument unless the second is
    strictly smaller. *)
Definition py_min (a b : Q) : Q := if Qltb b a then b else a.

(** The builtin [max(a, b)]: the first argument unless the second is
    strictly greater. *)
Definition py_max (a b : Q) : Q := if Qltb a b then b else a.

(** Values that [json.loads] produces. *)
#[warnings="-register-all"]
Inductive pyval : Type :=
| PNone
| PBool (b : bool)
| PInt (z : Z)
| PFloat (q : Q)
| PStr (s : string)
| PList (l : list pyval)
| PDict (d : gmap string pyval).

(** Truth value of an object ([if v:], [not v]). *)
Definition truthy (v : pyval) : bool :=
  match v with
  | PNone => false
  | PBool b => b
  | PInt z => negb (z =? 0)%Z
  | PFloat q => negb (Qeq_bool q 0)
  | PStr s => negb (String.eqb s "")
  | PList l => match l with [] => false | _ => true end
  | PDict d => negb (bool_decide (d = ∅))
  end.

(** [isinstance(v, dict)] *)
Definition is_dict (v : pyval) : bool :=
  match v with PDict _ => true | _ => false end.

(** [isinstance(v, (int, float))] together with [float(v)]: [bool] is a
    subclass of [int]. *)
Definition as_number (v : pyval) : option Q :=
  match v with
  | PBool b => Some (if b then 1%Q else 0%Q)
  | PInt z => Some (inject_Z z)
  | PFloat q => Some q
  | _ => None
  end.

(** [dict.get(k)]: the value under [k], or [None]. *)
Definition dict_get (d : gmap string pyval) (k : string) : pyval :=
  default PNone (d !! k).

(** The builtin [str(v)].  Strings, integers, booleans and [None] are
    rendered here; what Python prints for a float, a list or a dict is part
    of the interpreter, not of this repository, and is the parameter
    [repr]. *)
Definition py_str (repr : pyval -> string) (v : pyval) : string :=
  match v with
  | PStr s => s
  | PInt z => NilZero.string_of_int (Z.to_int z)
  | PBool b => if b then "True" else "False"
  | PNone => "None"
  | _ => repr v
  end.

(** Exceptions that the modelled code can raise. *)
Inductive exn : Type :=
| AttributeError      (* [.get] on an object that is not a dict *)
| RuntimeError        (* [_run]: ffmpeg returned a non-zero code *)
| SqliteError.        (* any [sqlite3.Error] *)

Inductive exc (A : Type) : Type :=
| Ok (a : A)
| Raise (e : exn).
Arguments Ok {A} a.
Arguments Raise {A} e.

Definition bind {A B} (m : exc A) (k : A -> exc B) : exc B :=
  match m with
  | Ok a => k a
  | Raise e => Raise e
  end.

Definition is_ok {A} (m : exc A) : bool :=
  match m with Ok _ => true | Raise _ => false end.

(** [v.get(k)] on an arbitrary object: only a dict has the method. *)
Definition attr_get (v : pyval) (k : string) : exc pyval :=
  match v with
  | PDict d => Ok (dict_get d k)
  | _ => Raise AttributeError
  end.

Lemma Qltb_lt a b : Qltb a b = true <-> (a < b)%Q.
Proof.
  unfold Qltb. rewrite negb_true_iff. split; intros H.
  - apply Qnot_le_lt. intros H'. apply Qle_bool_iff in H'. congruence.
  - destruct (Qle_bool b a) eqn:E; [|reflexivity].
    apply Qle_bool_iff in E. apply Qle_not_lt in E. tauto.
Qed.

Lemma Qltb_ge a b : Qltb a b = false <-> (b <= a)%Q.
Proof.
  unfold Qltb. rewrite negb_false_iff. apply Qle_bool_iff.
Qed.

Lemma py_min_spec a b :
  ((b < a)%Q /\ py_min a b = b) \/ ((a <= b)%Q /\ py_min a b = a).
Proof.
  unfold py_min. destruct (Qltb b a) eqn:E.
  - left. split; [by apply Qltb_lt | done].
  - right. split; [by apply Qltb_ge | done].
Qed.

Lemma py_max_spec a b :
  ((a < b)%Q /\ py_max a b = b) \/ ((b <= a)%Q /\ py_max a b = a).
Proof.
  unfold py_max. destruct (Qltb a b) eqn:E.
  - left. split; [by apply Qltb_lt | done].
  - right. split; [by apply Qltb_ge | done].
Qed.




Lemma py_min_l a b : (py_min a b <= a)%Q.
Proof. destruct (py_min_spec a b) as [[? ->]|[? ->]]; lra. Qed.

Lemma py_min_r a b : (py_min a b <= b)%Q.
Proof. destruct (py_min_spec a b) as [[? ->]|[? ->]]; lra. Qed.


End Py.

#[global] Instance exc_ret : MRet Py.exc := @Py.Ok.
#[global] Instance exc_bind : MBind Py.exc := fun A B k m => Py.bind m k.

(** ** chunker.py *)

Module Chunker.
Import Py.

(** A planned window [(start_sec, dur_sec)]. *)
Definition window : Type := (Q * Q)%type.

Definition inspect {A} (a : A) : {b | a = b} := exist _ a eq_refl.

Lemma Qfloor_plus_Z (x : Q) (z : Z) : Qfloor (x + inject_Z z) = (Qfloor x + z)%Z.
Proof.
  destruct x as [n d]. unfold Qfloor, Qplus, inject_Z. simpl.
  rewrite Pos.mul_1_r, Z.mul_1_r. apply Z.div_add. lia.
Qed.

Lemma Qceiling_plus_Z (x : Q) (z : Z) : Qceiling (x + inject_Z z) = (Qceiling x + z)%Z.
Proof.
  unfold Qceiling.
  assert (E : (- (x + inject_Z z) == - x + inject_Z (- z))%Q).
  { rewrite inject_Z_opp. ring. }
  rewrite E, Qfloor_plus_Z. lia.
Qed.

Lemma loop_measure (duration t s : Q) :
  (1 <= s)%Q -> (t < duration)%Q ->
  (Z.to_nat (Qceiling (duration - (t + s))) < Z.to_nat (Qceiling (duration - t)))%nat.
Proof.
  intros H1 Hlt.
  pose proof (Qle_ceiling (duration - t)) as Hb.
  assert (H0 : (0 < Qceiling (duration - t))%Z).
  { rewrite Zlt_Qlt. change (inject_Z 0) with 0%Q. lra. }
  assert (Hz : (Qceiling (duration - (t + s)) <= Qceiling (duration - t + inject_Z (-1)))%Z).
  { apply Qceiling_resp_le. change (inject_Z (-1)) with (-1)%Q. lra. }
  pose proof (Qceiling_plus_Z (duration - t) (-1)) as Hc.
  lia.
Qed.

(** The step between two window starts. *)
Definition step (chunk_sec overlap_sec : Z) : Z := Z.max 1 (chunk_sec - overlap_sec).

(** The [while t < duration] loop of [build_chunks], from the value [t] of
    the loop variable on: the windows appended from here to the exit. *)
Equations? build_chunks_loop (duration : Q) (chunk_sec overlap_sec : Z) (t : Q) : list window
  by wf (Z.to_nat (Qceiling (duration - t))) lt :=
build_chunks_loop duration chunk_sec overlap_sec t with inspect (Qltb t duration) := {
  | exist _ true Hlt =>
      let d := py_min (inject_Z chunk_sec) (py_max 0 (duration - t)) in
      if Qle_bool d 1 then []
      else (t, d) :: build_chunks_loop duration chunk_sec overlap_sec
                       (t + inject_Z (step chunk_sec overlap_sec))
  | exist _ false _ => [] }.
Proof.
  apply loop_measure.
  - change 1%Q with (inject_Z 1). rewrite <- Zle_Qle. unfold step. lia.
  - by apply Qltb_lt.
Defined.

Definition build_chunks (duration : Q) (chunk_sec overlap_sec : Z) : list window :=
  build_chunks_loop duration chunk_sec overlap_sec 0.

(** The loop, unfolded once. *)
Lemma build_chunks_loop_eq duration chunk_sec overlap_sec t :
  build_chunks_loop duration chunk_sec overlap_sec t =
  if Qltb t duration then
    let d := py_min (inject_Z chunk_sec) (py_max 0 (duration - t)) in
    if Qle_bool d 1 then []
    else (t, d) :: build_chunks_loop duration chunk_sec overlap_sec
                     (t + inject_Z (step chunk_sec overlap_sec))
  else [].
Proof.
  funelim (build_chunks_loop duration chunk_sec overlap_sec t).
  - by rewrite Hlt.
  - match goal with E : Qltb _ _ = false |- _ => by rewrite E end.
Qed.

(** What the claim asks of one emitted window: at most [chunk_sec] long
    and not shorter than one second. *)
Definition window_ok (chunk_sec : Z) (w : window) : Prop :=
  (snd w <= inject_Z chunk_sec)%Q /\ ~ (snd w < 1)%Q.

Lemma build_chunks_loop_windows duration chunk_sec overlap_sec t :
  Forall (fun w : window => (t <= fst w)%Q /\ window_ok chunk_sec w)
    (build_chunks_loop duration chunk_sec overlap_sec t).
Proof.
  funelim (build_chunks_loop duration chunk_sec overlap_sec t); [|constructor].
  destruct (Qle_bool _ 1) eqn:Hd; [constructor|].
  assert (Hd' : ~ (py_min (inject_Z chunk_sec) (py_max 0 (duration - t)) <= 1)%Q).
  { intros Hle. apply Qle_bool_iff in Hle. congruence. }
  constructor.
  - unfold window_ok. simpl. split; [lra|]. split.
    + destruct (py_min_spec (inject_Z chunk_sec) (py_max 0 (duration - t)))
        as [[? ->]|[? ->]]; lra.
    + lra.
  - eapply Forall_impl; [eassumption|].
    intros w [Hw ?]. split; [|done].
    assert (1 <= inject_Z (step chunk_sec overlap_sec))%Q.
    { change 1%Q with (inject_Z 1). rewrite <- Zle_Qle. unfold step. lia. }
    lra.
Qed.

Lemma build_chunks_loop_sorted duration chunk_sec overlap_sec t :
  StronglySorted Qlt (map fst (build_chunks_loop duration chunk_sec overlap_sec t)).
Proof.
  funelim (build_chunks_loop duration chunk_sec overlap_sec t); [|constructor].
  destruct (Qle_bool _ 1) eqn:Hd; [constructor|].
  simpl. constructor; [assumption|].
  apply Forall_map.
  eapply Forall_impl; [apply build_chunks_loop_windows|].
  intros w [Hw _]. simpl.
  assert (1 <= inject_Z (step chunk_sec overlap_sec))%Q.
  { change 1%Q with (inject_Z 1). rewrite <- Zle_Qle. unfold step. lia. }
  lra.
Qed.

(** C7.  The window planner returns no window for a duration of at most one
    second; for all arguments the starts of the emitted windows increase
    strictly, and every emitted window is at most [chunk_sec] long and not
    shorter than one second. *)
Theorem build_chunks_windows (duration : Q) (chunk_sec overlap_sec : Z) :
  ((duration <= 1)%Q -> build_chunks duration chunk_sec overlap_sec = []) /\
  StronglySorted Qlt (map fst (build_chunks duration chunk_sec overlap_sec)) /\
  Forall (window_ok chunk_sec) (build_chunks duration chunk_sec overlap_sec).
Proof.
  unfold build_chunks. split; [|split].
  - intros Hle. rewrite build_chunks_loop_eq.
    destruct (Qltb 0 duration) eqn:E; [|done].
    apply Qltb_lt in E. cbv zeta.
    destruct (Qle_bool _ 1) eqn:Hd; [done|]. exfalso.
    assert (Hd' : ~ (py_min (inject_Z chunk_sec) (py_max 0 (duration - 0)) <= 1)%Q).
    { intros H. apply Qle_bool_iff in H. congruence. }
    apply Hd'.
    destruct (py_min_spec (inject_Z chunk_sec) (py_max 0 (duration - 0)))
      as [[? ->]|[? ->]];
    destruct (py_max_spec 0 (duration - 0)) as [[? Hm]|[? Hm]];
      rewrite Hm in *; lra.
  - apply build_chunks_loop_sorted.
  - eapply Forall_impl; [apply build_chunks_loop_windows|].
    by intros w [_ ?].
Qed.

Lemma build_chunks_windows_witness :
  build_chunks (1 # 2) 30 10 = [] /\
  StronglySorted Qlt (map fst (build_chunks 100 30 10)) /\
  Forall (window_ok 30) (build_chunks 100 30 10).
Proof.
  split.
  - apply (proj1 (build_chunks_windows (1 # 2) 30 10)). vm_compute. discriminate.
  - apply (proj2 (build_chunks_windows 100 30 10)).
Defined.

Example build_chunks_100_30_10 :
  build_chunks 100 30 10 = [(0, 30); (20, 30); (40, 30); (60, 30); (80, 20)]%Q.
Proof. vm_compute. reflexivity. Qed.


(** *** Layout and coverage of the plan *)

Lemma step_ge_1 chunk_sec overlap_sec : (1 <= inject_Z (step chunk_sec overlap_sec))%Q.
Proof. change 1%Q with (inject_Z 1). rewrite <- Zle_Qle. unfold step. lia. Qed.

Lemma build_chunks_loop_layout duration chunk_sec overlap_sec t i w :
  build_chunks_loop duration chunk_sec overlap_sec t !! i = Some w ->
  (fst w == t + inject_Z (Z.of_nat i * step chunk_sec overlap_sec))%Q /\
  (fst w < duration)%Q /\
  snd w = py_min (inject_Z chunk_sec) (duration - fst w).
Proof.
  revert i. funelim (build_chunks_loop duration chunk_sec overlap_sec t);
    [|by intros i Hi].
  intros i. destruct (Qle_bool _ 1) eqn:Hd; [done|].
  pose proof (proj1 (Qltb_lt _ _) Hlt) as Hlt'.
  destruct i as [|i]; simpl.
  - intros [= <-]. simpl. split.
    { change (Z.of_nat 0) with 0%Z. rewrite Z.mul_0_l. change (inject_Z 0) with 0%Q. ring. }
    split; [done|].
    unfold py_max. assert (E : Qltb 0 (duration - t) = true) by (apply Qltb_lt; lra).
    by rewrite E.
  - intros Hi.
    match goal with
    | IH : forall (w : Q * Q) (i : nat), _ |- _ => destruct (IH w i Hi) as (Hs & Hlt2 & Hlen)
    end.
    split; [|done].
    rewrite Hs, Nat2Z.inj_succ, Z.mul_succ_l, inject_Z_plus. ring.
Qed.

(** The [i]-th window of the plan starts at [i * step], inside the
    recording, and runs for [chunk_sec] seconds or to the end of the
    recording, whichever comes first. *)
Theorem build_chunks_layout (duration : Q) (chunk_sec overlap_sec : Z) (i : nat) (w : window) :
  build_chunks duration chunk_sec overlap_sec !! i = Some w ->
  (fst w == inject_Z (Z.of_nat i * step chunk_sec overlap_sec))%Q /\
  (0 <= fst w)%Q /\ (fst w < duration)%Q /\
  snd w = py_min (inject_Z chunk_sec) (duration - fst w) /\
  (fst w + snd w <= duration)%Q.
Proof.
  intros Hi. apply build_chunks_loop_layout in Hi as (Hs & Hlt & Hlen).
  assert (Hs' : (fst w == inject_Z (Z.of_nat i * step chunk_sec overlap_sec))%Q)
    by (rewrite Hs; ring).
  split; [done|]. split.
  { rewrite Hs'. change 0%Q with (inject_Z 0). rewrite <- Zle_Qle.
    apply Z.mul_nonneg_nonneg; unfold step; lia. }
  split; [done|]. split; [done|].
  rewrite Hlen. pose proof (py_min_r (inject_Z chunk_sec) (duration - fst w)). lra.
Qed.

Lemma build_chunks_layout_witness :
  (20 == inject_Z (Z.of_nat 1 * step 30 10))%Q /\
  (0 <= 20)%Q /\ (20 < 45)%Q /\
  25%Q = py_min (inject_Z 30) (45 - 20) /\
  (20 + 25 <= 45)%Q.
Proof.
  apply (build_chunks_layout 45 30 10 1 (20%Q, 25%Q)). vm_compute. reflexivity.
Defined.

Lemma build_chunks_loop_covers duration chunk_sec overlap_sec t x :
  (1 < chunk_sec)%Z -> (0 <= overlap_sec)%Z ->
  (t <= x)%Q -> (x < duration - 1)%Q ->
  Exists (fun w : window => (fst w <= x)%Q /\ (x < fst w + snd w)%Q)
    (build_chunks_loop duration chunk_sec overlap_sec t).
Proof.
  intros Hc Ho. funelim (build_chunks_loop duration chunk_sec overlap_sec t).
  - intros Htx Hx. pose proof (proj1 (Qltb_lt _ _) Hlt) as Hlt'.
    assert (Hchunk : (1 < inject_Z chunk_sec)%Q).
    { change 1%Q with (inject_Z 1). by rewrite <- Zlt_Qlt. }
    assert (Hmax : py_max 0 (duration - t) = (duration - t)%Q).
    { unfold py_max. assert (E : Qltb 0 (duration - t) = true) by (apply Qltb_lt; lra).
      by rewrite E. }
    destruct (Qle_bool _ 1) eqn:Hd; rewrite Hmax in *.
    { exfalso. apply Qle_bool_iff in Hd.
      destruct (py_min_spec (inject_Z chunk_sec) (duration - t)) as [[? E]|[? E]];
        rewrite E in Hd; lra. }
    destruct (Qlt_le_dec x (t + py_min (inject_Z chunk_sec) (duration - t))) as [Hin|Hout].
    + apply Exists_cons_hd. simpl. done.
    + apply Exists_cons_tl.
      match goal with IH : forall x : Q, _ |- _ => apply IH end; try done.
      assert (Hstep : (inject_Z (step chunk_sec overlap_sec) <= inject_Z chunk_sec)%Q).
      { rewrite <- Zle_Qle. unfold step. lia. }
      destruct (py_min_spec (inject_Z chunk_sec) (duration - t)) as [[? E]|[? E]];
        rewrite E in Hout; lra.
  - intros Htx Hx. exfalso.
    match goal with
    | E : Qltb _ _ = false |- _ => pose proof (proj1 (Qltb_ge _ _) E)
    end. lra.
Qed.

(** With windows longer than a second and no negative overlap, the plan
    leaves out at most the last second: every instant more than a second
    before the end of the recording lies in a window. *)
Theorem build_chunks_covers (duration : Q) (chunk_sec overlap_sec : Z) (x : Q) :
  (1 < chunk_sec)%Z -> (0 <= overlap_sec)%Z ->
  (0 <= x)%Q -> (x < duration - 1)%Q ->
  exists w : window,
    w ∈ build_chunks duration chunk_sec overlap_sec /\
    (fst w <= x)%Q /\ (x < fst w + snd w)%Q.
Proof.
  intros Hc Ho H0 Hx.
  pose proof (build_chunks_loop_covers duration chunk_sec overlap_sec 0 x Hc Ho H0 Hx) as H.
  apply Exists_exists in H as (w & Hin & Hw). eauto.
Qed.

Lemma build_chunks_covers_witness :
  exists w : window,
    w ∈ build_chunks 100 30 10 /\ (fst w <= 55)%Q /\ (55 < fst w + snd w)%Q.
Proof.
  apply (build_chunks_covers 100 30 10 55); [lia|lia|vm_compute; discriminate|reflexivity].
Defined.

(** The last second can indeed be left out: a recording of 41 seconds is
    planned as [(0, 30)] and [(20, 21)] and the sliver at 40 is dropped, so
    the windows' starts are spaced by the step and the last window ends at
    the end of the recording. *)
Example build_chunks_41_30_10 :
  build_chunks 41 30 10 = [(0, 30); (20, 21)]%Q.
Proof. vm_compute. reflexivity. Qed.

(** *** The first window *)

Lemma build_chunks_head (duration : Q) (chunk_sec overlap_sec : Z) :
  (build_chunks duration chunk_sec overlap_sec = [] <->
   (duration <= 1)%Q \/ (chunk_sec <= 1)%Z) /\
  ((1 < duration)%Q -> (1 < chunk_sec)%Z ->
   head (build_chunks duration chunk_sec overlap_sec) =
     Some (0%Q, py_min (inject_Z chunk_sec) (duration - 0))).
Proof.
  unfold build_chunks. rewrite build_chunks_loop_eq.
  assert (Hc : (chunk_sec <= 1)%Z <-> (inject_Z chunk_sec <= 1)%Q).
  { change 1%Q with (inject_Z 1). by rewrite <- Zle_Qle. }
  destruct (Qltb 0 duration) eqn:Hlt.
  - apply Qltb_lt in Hlt.
    assert (Hmax : py_max 0 (duration - 0) = (duration - 0)%Q).
    { unfold py_max. assert (E : Qltb 0 (duration - 0) = true) by (apply Qltb_lt; lra).
      by rewrite E. }
    cbn zeta. rewrite Hmax.
    destruct (Qle_bool _ 1) eqn:Hd.
    + apply Qle_bool_iff in Hd. split.
      * split; [|done]. intros _.
        destruct (py_min_spec (inject_Z chunk_sec) (duration - 0)) as [[? E]|[? E]];
          rewrite E in Hd; [left; lra|right; by apply Hc].
      * intros Hdur Hch. exfalso. rewrite Zlt_Qlt in Hch.
        change (inject_Z 1) with 1%Q in Hch.
        destruct (py_min_spec (inject_Z chunk_sec) (duration - 0)) as [[? E]|[? E]];
          rewrite E in Hd; lra.
    + split; [|done]. split; [done|]. intros Hor. exfalso.
      assert (Hn : ~ (py_min (inject_Z chunk_sec) (duration - 0) <= 1)%Q).
      { intros Hle. apply Qle_bool_iff in Hle. congruence. }
      apply Hn. destruct Hor as [Hor|Hor].
      * pose proof (py_min_r (inject_Z chunk_sec) (duration - 0)). lra.
      * apply Hc in Hor. pose proof (py_min_l (inject_Z chunk_sec) (duration - 0)). lra.
  - apply Qltb_ge in Hlt. split.
    + split; [|done]. intros _. left. lra.
    + intros Hdur. lra.
Qed.

(** The plan is empty exactly for a recording of at most one second or a
    window length of at most one second, whatever the overlap.  Otherwise
    it begins with the window at 0, which is as long as the shorter of the
    window length and the recording. *)
Theorem build_chunks_first (duration : Q) (chunk_sec overlap_sec : Z) :
  (build_chunks duration chunk_sec overlap_sec = [] <->
   (duration <= 1)%Q \/ (chunk_sec <= 1)%Z) /\
  (forall w : window,
     head (build_chunks duration chunk_sec overlap_sec) = Some w ->
     fst w = 0%Q /\
     (snd w <= inject_Z chunk_sec)%Q /\ (snd w <= duration)%Q /\
     ((snd w == inject_Z chunk_sec)%Q \/ (snd w == duration)%Q)).
Proof.
  destruct (build_chunks_head duration chunk_sec overlap_sec) as [Hempty Hhead].
  split; [done|]. intros w Hw.
  assert (Hne : build_chunks duration chunk_sec overlap_sec <> []).
  { intros E. by rewrite E in Hw. }
  assert (Hd : (1 < duration)%Q).
  { destruct (Qlt_le_dec 1 duration) as [|Hle]; [done|]. exfalso. apply Hne, Hempty. by left. }
  assert (Hc : (1 < chunk_sec)%Z).
  { destruct (Z_lt_le_dec 1 chunk_sec) as [|Hle]; [done|]. exfalso. apply Hne, Hempty. by right. }
  rewrite (Hhead Hd Hc) in Hw. injection Hw as <-. cbn [fst snd].
  split; [done|].
  pose proof (py_min_l (inject_Z chunk_sec) (duration - 0)).
  pose proof (py_min_r (inject_Z chunk_sec) (duration - 0)).
  split; [done|]. split; [lra|].
  destruct (py_min_spec (inject_Z chunk_sec) (duration - 0)) as [[_ ->]|[_ ->]].
  - right. ring.
  - by left.
Qed.

End Chunker.

(** ** shazam_recognizer.py *)

Module ShazamRecognizer.
Import Py.

(** [resp.get("track") if isinstance(resp, dict) else None] *)
Definition resp_track (resp : pyval) : pyval :=
  match resp with
  | PDict d => dict_get d "track"
  | _ => PNone
  end.

(** The [for k in [...]] loop of [extract_track_id]. *)
Fixpoint track_id_loop (repr : pyval -> string) (track : pyval) (ks : list string)
  : exc (option string) :=
  match ks with
  | [] => Ok None
  | k :: ks' =>
      v ← attr_get track k;
      if truthy v then Ok (Some (py_str repr v)) else track_id_loop repr track ks'
  end.

Definition extract_track_id (repr : pyval -> string) (resp : pyval) : exc (option string) :=
  let track := resp_track resp in
  if negb (truthy track) then Ok None
  else track_id_loop repr track ["key"; "id"; "shazam_id"; "shazamID"].

(** [a or b] *)
Definition py_or (a b : pyval) : pyval := if truthy a then a else b.

(** Returns [(artist, title)]. *)
Definition extract_artist_title (resp : pyval) : exc (pyval * pyval) :=
  let track := resp_track resp in
  if negb (truthy track) then Ok (PNone, PNone)
  else
    title ← attr_get track "title";
    subtitle ← attr_get track "subtitle";
    artist ← (if truthy subtitle then Ok subtitle else attr_get track "artist");
    Ok (artist, title).

(** The body of the confidence loop for a numeric [v]:
    [float(v) / 100.0] if [1.0 < v <= 100.0], else [float(v)]. *)
Definition normalize_confidence (v : Q) : Q :=
  if Qltb 1 v && Qle_bool v 100 then (v / 100)%Q else v.

(** The [for k in [...]] loop of [extract_confidence]. *)
Fixpoint confidence_loop (track : pyval) (ks : list string) : exc (option Q) :=
  match ks with
  | [] => Ok None
  | k :: ks' =>
      v ← attr_get track k;
      match as_number v with
      | Some x => Ok (Some (normalize_confidence x))
      | None => confidence_loop track ks'
      end
  end.

Definition confidence_keys : list string := ["confidence"; "score"; "probability"].

Definition extract_confidence (resp : pyval) : exc (option Q) :=
  let track := resp_track resp in
  if negb (truthy track) then Ok None
  else confidence_loop track confidence_keys.

(** [ShazamIORecognizer.recognize_file], given the outcome [raw] of the
    call [self._shazam.recognize(wav_path)]: every exception and every
    response without a ["track"] key becomes [None]. *)
Definition recognize_file (raw : exc pyval) : pyval :=
  match raw with
  | Raise _ => PNone
  | Ok resp =>
      match resp with
      | PDict d =>
          if negb (truthy resp) || negb (bool_decide (is_Some (d !! "track")))
          then PNone else resp
      | _ => PNone
      end
  end.

(** *** Properties of the confidence extraction *)











(** *** The other extractors *)

Definition track_id_keys : list string := ["key"; "id"; "shazam_id"; "shazamID"].

Lemma track_id_loop_first repr track pre k post :
  Forall (fun k' => truthy (dict_get track k') = false) pre ->
  truthy (dict_get track k) = true ->
  track_id_loop repr (PDict track) (pre ++ k :: post) =
    Ok (Some (py_str repr (dict_get track k))).
Proof.
  induction 1 as [|k' pre Hk' _ IH]; intros Hv; simpl.
  - by rewrite Hv.
  - rewrite Hk'. by apply IH.
Qed.

Lemma track_id_loop_none repr track ks :
  Forall (fun k => truthy (dict_get track k) = false) ks ->
  track_id_loop repr (PDict track) ks = Ok None.
Proof.
  induction 1 as [|k ks Hk _ IH]; simpl; [done|]. by rewrite Hk.
Qed.

(** The track id is the text of the first of the fields [key], [id],
    [shazam_id], [shazamID] of the track object that holds a truthy value,
    a string as it is; without such a field there is no id. *)
Theorem extract_track_id_first (repr : pyval -> string) (resp : pyval)
    (track : gmap string pyval) :
  resp_track resp = PDict track -> track <> ∅ ->
  (forall pre k post,
     track_id_keys = pre ++ k :: post ->
     Forall (fun k' => truthy (dict_get track k') = false) pre ->
     truthy (dict_get track k) = true ->
     extract_track_id repr resp = Ok (Some (py_str repr (dict_get track k))) /\
     (forall s, dict_get track k = PStr s ->
        extract_track_id repr resp = Ok (Some s))) /\
  (Forall (fun k => truthy (dict_get track k) = false) track_id_keys ->
   extract_track_id repr resp = Ok None).
Proof.
  intros Htrack Hne. unfold extract_track_id. rewrite Htrack. cbn [truthy].
  rewrite bool_decide_eq_false_2 by done. cbn [negb].
  fold track_id_keys. split.
  - intros pre k post Hkeys Hpre Hv. rewrite Hkeys.
    rewrite (track_id_loop_first _ _ _ _ _ Hpre Hv). split; [done|].
    by intros s ->.
  - apply track_id_loop_none.
Qed.

Lemma extract_track_id_first_witness :
  extract_track_id (fun _ => "")
    (PDict {[ "track" := PDict {[ "key" := PStr ""; "id" := PInt 42 ]} ]}) =
  Ok (Some "42").
Proof.
  pose (track := ({[ "key" := PStr ""; "id" := PInt 42 ]} : gmap string pyval)).
  pose (resp := PDict ({[ "track" := PDict track ]} : gmap string pyval)).
  destruct (proj1 (extract_track_id_first (fun _ => "") resp track
                     ltac:(vm_compute; reflexivity)
                     ltac:(apply insert_non_empty))
              ["key"] "id" ["shazam_id"; "shazamID"] eq_refl
              ltac:(repeat constructor) eq_refl) as [H _].
  exact H.
Defined.

(** The track object makes the extractors raise: it is truthy and not a
    dict. *)
Definition malformed_track (resp : pyval) : bool :=
  truthy (resp_track resp) && negb (is_dict (resp_track resp)).

(** The three extractors raise in the same cases, when the track object is
    a truthy value that is not a dict, and then raise [AttributeError]; on
    every other response all three return. *)
Lemma extractors_raise_together (repr : pyval -> string) (resp : pyval) :
  (malformed_track resp = true ->
   extract_track_id repr resp = Raise AttributeError /\
   extract_artist_title resp = Raise AttributeError /\
   extract_confidence resp = Raise AttributeError) /\
  (malformed_track resp = false ->
   is_ok (extract_track_id repr resp) = true /\
   is_ok (extract_artist_title resp) = true /\
   is_ok (extract_confidence resp) = true).
Proof.
  unfold malformed_track, extract_track_id, extract_artist_title, extract_confidence.
  destruct (resp_track resp) as [| b | z | q | s0 | l | d] eqn:Ht.
  1-6: destruct (truthy _) eqn:Htr; cbn [is_dict negb andb];
       (split; intros Hm; [try discriminate|try discriminate]);
       repeat split; reflexivity.
  cbn [is_dict negb]. rewrite andb_false_r. split; [discriminate|]. intros _.
  destruct (truthy (PDict d)); cbn [negb]; [|done].
  assert (H1 : forall ks, is_ok (track_id_loop repr (PDict d) ks) = true).
  { induction ks as [|k ks IH]; simpl; [done|]. by destruct (truthy _). }
  assert (H2 : forall ks, is_ok (confidence_loop (PDict d) ks) = true).
  { induction ks as [|k ks IH]; simpl; [done|]. by destruct (as_number _). }
  split; [apply H1|]. split; [|apply H2].
  simpl. by destruct (truthy (dict_get d "subtitle")).
Qed.

Example extractors_raise_together_example :
  extract_track_id (fun _ => "") (PDict {[ "track" := PStr "unknown" ]}) =
    Raise AttributeError /\
  is_ok (extract_confidence (PDict {[ "track" := PList [] ]})) = true.
Proof.
  split.
  - apply (proj1 (extractors_raise_together (fun _ => "")
                    (PDict {[ "track" := PStr "unknown" ]}))). reflexivity.
  - apply (proj2 (extractors_raise_together (fun _ => "")
                    (PDict {[ "track" := PList [] ]}))). reflexivity.
Defined.

(** The artist is the [subtitle] of the track object if that is truthy and
    its [artist] field otherwise; the title is its [title]. *)
Theorem extract_artist_title_fallback (resp : pyval) (track : gmap string pyval) :
  resp_track resp = PDict track -> track <> ∅ ->
  extract_artist_title resp =
    Ok (if truthy (dict_get track "subtitle") then dict_get track "subtitle"
        else dict_get track "artist",
        dict_get track "title").
Proof.
  intros Htrack Hne. unfold extract_artist_title. rewrite Htrack. cbn [truthy].
  rewrite bool_decide_eq_false_2 by done. simpl.
  by destruct (truthy (dict_get track "subtitle")).
Qed.

Lemma extract_artist_title_fallback_witness :
  extract_artist_title
    (PDict {[ "track" := PDict {[ "title" := PStr "Song"; "subtitle" := PStr "";
                                  "artist" := PStr "Band" ]} ]}) =
  Ok (PStr "Band", PStr "Song").
Proof.
  pose (track := ({[ "title" := PStr "Song"; "subtitle" := PStr "";
                     "artist" := PStr "Band" ]} : gmap string pyval)).
  pose (resp := PDict ({[ "track" := PDict track ]} : gmap string pyval)).
  apply (extract_artist_title_fallback resp track).
  - vm_compute. reflexivity.
  - apply insert_non_empty.
Defined.



End ShazamRecognizer.

(** ** store.py *)

Module Store.
Import Py.

(** The primary key of [chunk_cache].  [process_one] builds it as
    [f"{src_hash}:{start:.2f}:{dur:.2f}:{sample_rate}"]: the content hash,
    the start and the length in hundredths of a second (the two-decimal
    rendering of a non-negative number), and the sample rate. *)
Definition chunk_key : Type := (string * Z * Z * Z)%type.

(** One row of [chunk_cache] without its key: [created_utc] and the
    nullable text [shazam_json].  A text written by [json.dumps] is
    represented by the document that [json.loads] reads back from it. *)
Record row : Type := Row { created_utc : Z; shazam_json : option pyval }.

Abbreviation table := (gmap chunk_key row).

(** [Store.get_chunk].  [sqlite_ok] says whether the [sqlite3] calls go
    through; nothing in the method catches their exceptions.
    [if not row or not row[0]: return None] answers [None] both when no
    row has the key and when the row holds NULL. *)
Definition get_chunk (sqlite_ok : bool) (con : table) (key : chunk_key) : exc pyval :=
  if sqlite_ok then
    match con !! key with
    | None => Ok PNone
    | Some r =>
        match shazam_json r with
        | None => Ok PNone
        | Some doc => Ok doc
        end
    end
  else Raise SqliteError.

(** [Store.put_chunk]: [INSERT OR REPLACE] of the row, with
    [json.dumps(shazam_obj) if shazam_obj else None] as its text.  [now] is
    [int(time.time())]. *)
Definition put_chunk (sqlite_ok : bool) (now : Z) (con : table) (key : chunk_key)
    (shazam_obj : pyval) : exc table :=
  if sqlite_ok then
    Ok (<[key := Row now (if truthy shazam_obj then Some shazam_obj else None)]> con)
  else Raise SqliteError.

Lemma get_chunk_put_chunk now con key obj con' :
  put_chunk true now con key obj = Ok con' ->
  get_chunk true con' key = Ok (if truthy obj then obj else PNone).
Proof.
  unfold put_chunk, get_chunk. intros [= <-].
  rewrite lookup_insert_eq. simpl. by destruct (truthy obj).
Qed.

Lemma get_chunk_put_chunk_ne now con key key' obj con' :
  key <> key' ->
  put_chunk true now con key obj = Ok con' ->
  get_chunk true con' key' = get_chunk true con key'.
Proof.
  unfold put_chunk, get_chunk. intros Hne [= <-].
  by rewrite lookup_insert_ne.
Qed.

(** C2.  What the code does where the claim asks for three outcomes: a key
    that was never written and a key written with the "no match" payload
    both read back as [None]. *)
Theorem get_chunk_conflates_absent_and_no_match (key : chunk_key) (now : Z) :
  get_chunk true ∅ key = Ok PNone /\
  exists con, put_chunk true now ∅ key PNone = Ok con /\
              con !! key = Some (Row now None) /\
              get_chunk true con key = Ok PNone.
Proof.
  split; [done|].
  eexists. split; [reflexivity|]. unfold get_chunk.
  rewrite lookup_insert_eq. done.
Qed.


(** *** Round trips *)

(** What [put_chunk] leaves in the text column for [shazam_obj]. *)
Definition stored (shazam_obj : pyval) : option pyval :=
  if truthy shazam_obj then Some shazam_obj else None.

(** A write followed by a read of the same key gives back a truthy object
    and [None] for a falsy one (an empty dict included); a second write
    replaces the first and leaves one row; the other keys read as
    before. *)
Theorem put_chunk_get_chunk (now now' : Z) (con : table) (key : chunk_key) (a b : pyval) :
  exists con1 con2,
    put_chunk true now con key a = Ok con1 /\
    put_chunk true now' con1 key b = Ok con2 /\
    get_chunk true con1 key = Ok (if truthy a then a else PNone) /\
    get_chunk true con2 key = Ok (if truthy b then b else PNone) /\
    con2 = <[key := Row now' (stored b)]> con /\
    (forall key', key' <> key -> get_chunk true con2 key' = get_chunk true con key').
Proof.
  eexists. eexists. split; [reflexivity|]. split; [reflexivity|].
  unfold get_chunk, stored. rewrite !lookup_insert_eq. cbn [shazam_json].
  split; [by destruct (truthy a)|]. split; [by destruct (truthy b)|].
  split; [by rewrite insert_insert_eq|].
  intros key' Hne. by rewrite !lookup_insert_ne.
Qed.

(** An empty dict does not survive the round trip. *)
Example put_chunk_empty_dict (key : chunk_key) :
  (con ← put_chunk true 0 ∅ key (PDict ∅); get_chunk true con key) = Ok PNone.
Proof. unfold put_chunk, get_chunk. simpl. by rewrite lookup_insert_eq. Qed.

End Store.

(** ** pipeline.py *)

Module Pipeline.
Import Py Chunker ShazamRecognizer Store.

(** *** Numbers as they are printed *)

(** Rounding to the nearest integer, ties to the even one. *)
Definition round_half_even (x : Q) : Z :=
  let f := Qfloor x in
  let r := (x - inject_Z f)%Q in
  if Qltb r (1 # 2) then f
  else if Qltb (1 # 2) r then (f + 1)%Z
  else if Z.even f then f else (f + 1)%Z.

(** The digits of [f"{x:.2f}"], as a number of hundredths. *)
Definition hundredths (x : Q) : Z := round_half_even (x * 100).

(** [round(x, 3)] *)
Definition round3 (x : Q) : Q := (inject_Z (round_half_even (x * 1000)) / 1000)%Q.

(** [int(x)]: truncation towards zero. *)
Definition py_int (x : Q) : Z := if Qltb x 0 then Qceiling x else Qfloor x.

(** *** Tracks *)

Record TrackAgg : Type := {
  shazam_track_id : string;
  artist : pyval;
  title : pyval;
  confidence_max : Q;
  support : Z;
  first_seen_sec : Q;
  last_seen_sec : Q
}.

(** [tracks: Dict[str, TrackAgg]], in insertion order. *)
Abbreviation tracks_t := (list (string * TrackAgg)).

(** [tracks.get(tid)] *)
Fixpoint tracks_get (tracks : tracks_t) (tid : string) : option TrackAgg :=
  match tracks with
  | [] => None
  | (k, agg) :: rest => if String.eqb k tid then Some agg else tracks_get rest tid
  end.

(** [tracks[tid] = agg], and the effect on the dict of assigning to the
    attributes of the object stored under [tid]: an existing key keeps its
    position, a new key goes to the end. *)
Fixpoint tracks_set (tracks : tracks_t) (tid : string) (agg : TrackAgg) : tracks_t :=
  match tracks with
  | [] => [(tid, agg)]
  | (k, a) :: rest =>
      if String.eqb k tid then (k, agg) :: rest
      else (k, a) :: tracks_set rest tid agg
  end.

(** Lines 95-112 of [process_one]: the first sight of [tid] or one more
    sight of it. *)
Definition fold_sight (tracks : tracks_t) (tid : string) (artist title : pyval)
    (raw_conf : option Q) (start : Q) : tracks_t :=
  match tracks_get tracks tid with
  | None =>
      let base := match raw_conf with Some c => c | None => 0%Q end in
      tracks_set tracks tid
        {| shazam_track_id := tid; artist := artist; title := title;
           confidence_max := base; support := 1;
           first_seen_sec := start; last_seen_sec := start |}
  | Some agg =>
      tracks_set tracks tid
        {| shazam_track_id := shazam_track_id agg;
           artist := Pipeline.artist agg; title := Pipeline.title agg;
           confidence_max :=
             match raw_conf with
             | Some c => py_max (confidence_max agg) c
             | None => confidence_max agg
             end;
           support := (support agg + 1)%Z;
           first_seen_sec := py_min (first_seen_sec agg) start;
           last_seen_sec := py_max (last_seen_sec agg) start |}
  end.

(** [min(1.0, support / 3.0)] *)
Definition computed_confidence (support : Z) : Q :=
  py_min 1 (inject_Z support / 3).

(** Lines 116-118: the derived confidence folded into [tracks[tid]].  The
    key is present after [fold_sight] ([fold_sight_get]); without it the
    subscript would raise [KeyError]. *)
Definition fold_computed (tracks : tracks_t) (tid : string) : tracks_t :=
  match tracks_get tracks tid with
  | None => tracks
  | Some agg2 =>
      tracks_set tracks tid
        {| shazam_track_id := shazam_track_id agg2;
           artist := artist agg2; title := title agg2;
           confidence_max :=
             py_max (confidence_max agg2) (computed_confidence (support agg2));
           support := support agg2;
           first_seen_sec := first_seen_sec agg2;
           last_seen_sec := last_seen_sec agg2 |}
  end.

(** What lines 88-93 extract from a response that counts as a match. *)
Record match_record : Type := {
  m_tid : string;
  m_artist : pyval;
  m_title : pyval;
  m_raw_conf : option Q
}.

(** Lines 95-118. *)
Definition apply_match (tracks : tracks_t) (m : match_record) (start : Q) : tracks_t :=
  fold_computed
    (fold_sight tracks (m_tid m) (m_artist m) (m_title m) (m_raw_conf m) start)
    (m_tid m).

(** Lines 85-93: [None] when [process_one] returns before touching
    [tracks]. *)
Definition match_of (repr : pyval -> string) (resp : pyval) : exc (option match_record) :=
  if negb (truthy resp) then Ok None
  else
    tid ← extract_track_id repr resp;
    at_ ← extract_artist_title resp;
    match tid with
    | None => Ok None
    | Some tid =>
        if String.eqb tid "" || negb (truthy (fst at_)) || negb (truthy (snd at_))
        then Ok None
        else
          raw_conf ← extract_confidence resp;
          Ok (Some {| m_tid := tid; m_artist := fst at_; m_title := snd at_;
                      m_raw_conf := raw_conf |})
    end.

(** Lines 85-118: what [process_one] does with [resp]. *)
Definition apply_result (repr : pyval -> string) (tracks : tracks_t) (start : Q)
    (resp : pyval) : exc tracks_t :=
  m ← match_of repr resp;
  Ok (match m with
      | None => tracks
      | Some m => apply_match tracks m start
      end).

(** The aggregator applied to a stream of matches with their window
    starts, in the order in which they arrive. *)
Definition aggregate_matches (tracks : tracks_t) (ms : list (match_record * Q)) : tracks_t :=
  fold_left (fun t ms => apply_match t (fst ms) (snd ms)) ms tracks.

(** *** The dict operations *)

Lemma tracks_get_set_eq tracks tid agg :
  tracks_get (tracks_set tracks tid agg) tid = Some agg.
Proof.
  induction tracks as [|[k a] rest IH]; simpl.
  - by rewrite String.eqb_refl.
  - destruct (String.eqb k tid) eqn:E; simpl; by rewrite E.
Qed.

Lemma tracks_get_set_ne tracks tid tid' agg :
  tid' <> tid ->
  tracks_get (tracks_set tracks tid agg) tid' = tracks_get tracks tid'.
Proof.
  intros Hne. induction tracks as [|[k a] rest IH]; simpl.
  - destruct (String.eqb tid tid') eqn:E; [|done].
    apply String.eqb_eq in E. congruence.
  - destruct (String.eqb k tid) eqn:E; simpl.
    + apply String.eqb_eq in E. subst k.
      destruct (String.eqb tid tid') eqn:E'; [|done].
      apply String.eqb_eq in E'. congruence.
    + by rewrite IH.
Qed.



Lemma apply_match_other tracks m start tid' :
  tid' <> m_tid m ->
  tracks_get (apply_match tracks m start) tid' = tracks_get tracks tid'.
Proof.
  intros Hne. unfold apply_match, fold_computed.
  assert (Hs : tracks_get
                 (fold_sight tracks (m_tid m) (m_artist m) (m_title m) (m_raw_conf m) start)
                 tid' = tracks_get tracks tid').
  { unfold fold_sight.
    destruct (tracks_get tracks (m_tid m)); by rewrite tracks_get_set_ne. }
  destruct (tracks_get (fold_sight _ _ _ _ _ _) (m_tid m)); [|done].
  by rewrite tracks_get_set_ne.
Qed.

Lemma apply_match_new tracks m start :
  tracks_get tracks (m_tid m) = None ->
  tracks_get (apply_match tracks m start) (m_tid m) =
  Some {| shazam_track_id := m_tid m; artist := m_artist m; title := m_title m;
          confidence_max :=
            py_max (match m_raw_conf m with Some c => c | None => 0%Q end)
                   (py_min 1 (inject_Z 1 / 3));
          support := 1;
          first_seen_sec := start; last_seen_sec := start |}.
Proof.
  intros Hnone. unfold apply_match, fold_computed, fold_sight.
  rewrite Hnone, tracks_get_set_eq, tracks_get_set_eq. reflexivity.
Qed.

Lemma apply_match_seen tracks m start agg :
  tracks_get tracks (m_tid m) = Some agg ->
  tracks_get (apply_match tracks m start) (m_tid m) =
  Some {| shazam_track_id := shazam_track_id agg;
          artist := artist agg; title := title agg;
          confidence_max :=
            py_max (match m_raw_conf m with
                    | Some c => py_max (confidence_max agg) c
                    | None => confidence_max agg
                    end)
                   (py_min 1 (inject_Z (support agg + 1) / 3));
          support := (support agg + 1)%Z;
          first_seen_sec := py_min (first_seen_sec agg) start;
          last_seen_sec := py_max (last_seen_sec agg) start |}.
Proof.
  intros Hsome. unfold apply_match, fold_computed, fold_sight.
  rewrite Hsome, tracks_get_set_eq, tracks_get_set_eq. reflexivity.
Qed.

(** The stream of the example: three sights of [T1], no oracle confidence,
    at starts 0, 20 and 40. *)
Definition match_T1 : match_record :=
  {| m_tid := "T1"; m_artist := PStr "Artist"; m_title := PStr "Title";
     m_raw_conf := None |}.

Definition three_sights : list (match_record * Q) :=
  [(match_T1, 0%Q); (match_T1, 20%Q); (match_T1, 40%Q)].

(** C5.  On the first sight of a track id the aggregator creates an
    aggregate with the raw confidence or 0.0, support 1 and both times at
    the window start; on a later sight it adds one to the support, folds
    the start into the minimum and the maximum and the raw confidence, if
    there is one, into the maximum; after either it folds in
    [min(1.0, support / 3.0)]; the other tracks are left as they are.  Three
    sights of one track without oracle confidence at starts 0, 20, 40 give
    support 3, confidence 1.0, first seen 0, last seen 40. *)
Theorem apply_match_spec :
  (forall (tracks : tracks_t) (m : match_record) (start : Q),
     (tracks_get tracks (m_tid m) = None ->
      tracks_get (apply_match tracks m start) (m_tid m) =
      Some {| shazam_track_id := m_tid m; artist := m_artist m; title := m_title m;
              confidence_max :=
                py_max (match m_raw_conf m with Some c => c | None => 0%Q end)
                       (py_min 1 (inject_Z 1 / 3));
              support := 1;
              first_seen_sec := start; last_seen_sec := start |}) /\
     (forall agg,
        tracks_get tracks (m_tid m) = Some agg ->
        tracks_get (apply_match tracks m start) (m_tid m) =
        Some {| shazam_track_id := shazam_track_id agg;
                artist := artist agg; title := title agg;
                confidence_max :=
                  py_max (match m_raw_conf m with
                          | Some c => py_max (confidence_max agg) c
                          | None => confidence_max agg
                          end)
                         (py_min 1 (inject_Z (support agg + 1) / 3));
                support := (support agg + 1)%Z;
                first_seen_sec := py_min (first_seen_sec agg) start;
                last_seen_sec := py_max (last_seen_sec agg) start |}) /\
     (forall tid', tid' <> m_tid m ->
        tracks_get (apply_match tracks m start) tid' = tracks_get tracks tid')) /\
  tracks_get (aggregate_matches [] three_sights) "T1" =
  Some {| shazam_track_id := "T1"; artist := PStr "Artist"; title := PStr "Title";
          confidence_max := 1; support := 3;
          first_seen_sec := 0; last_seen_sec := 40 |}.
Proof.
  split.
  - intros tracks m start. split; [|split].
    + apply apply_match_new.
    + intros agg. apply apply_match_seen.
    + intros tid'. apply apply_match_other.
  - vm_compute. reflexivity.
Qed.

(** *** Order of arrival *)

(** Two aggregates with the same numeric fields. *)
Definition agg_numeric_eq (a b : TrackAgg) : Prop :=
  support a = support b /\
  (first_seen_sec a == first_seen_sec b)%Q /\
  (last_seen_sec a == last_seen_sec b)%Q /\
  (confidence_max a == confidence_max b)%Q.






Lemma agg_numeric_eq_sym a b : agg_numeric_eq a b -> agg_numeric_eq b a.
Proof. intros (? & ? & ? & ?). repeat split; by symmetry. Qed.
















Lemma apply_match_spec_witness :
  tracks_get (apply_match [] match_T1 0) "T1" =
  Some {| shazam_track_id := "T1"; artist := PStr "Artist"; title := PStr "Title";
          confidence_max := py_max 0 (py_min 1 (inject_Z 1 / 3)); support := 1;
          first_seen_sec := 0; last_seen_sec := 0 |}.
Proof.
  apply (proj1 (proj1 apply_match_spec [] match_T1 0%Q)). reflexivity.
Defined.

(** The second aggregation example of the specification: one sight with
    oracle confidence 0.9. *)
Example one_sight_with_confidence :
  tracks_get
    (aggregate_matches []
       [({| m_tid := "T2"; m_artist := PStr "A"; m_title := PStr "B";
            m_raw_conf := Some (9 # 10) |}, 0%Q)]) "T2" =
  Some {| shazam_track_id := "T2"; artist := PStr "A"; title := PStr "B";
          confidence_max := 9 # 10; support := 1;
          first_seen_sec := 0; last_seen_sec := 0 |}.
Proof. vm_compute. reflexivity. Qed.

Definition resp_T1 (conf : Z) : pyval :=
  PDict {[ "track" := PDict {[ "key" := PStr "T1"; "title" := PStr "Title";
                               "subtitle" := PStr "Artist";
                               "confidence" := PInt conf ]} ]}.


(** *** The report *)

(** The sort key [(-kv[1].confidence_max, -kv[1].support)]. *)
Definition sort_key (kv : string * TrackAgg) : Q * Z :=
  ((- confidence_max (snd kv))%Q, (- support (snd kv))%Z).

(** [k1 < k2] on two such tuples: the first components decide unless they
    are equal. *)
Definition key_lt (k1 k2 : Q * Z) : bool :=
  if Qeq_bool (fst k1) (fst k2) then (snd k1 <? snd k2)%Z
  else Qltb (fst k1) (fst k2).


(** The builtin [sorted(items, key=sort_key)], which Python guarantees to
    be stable.  It is modelled by the stable insertion sort: [x] goes
    before the first element that is not smaller than it.  For an order
    that is total up to equal keys, as this one, every stable sort returns
    the same list. *)
Fixpoint insert_by_key (x : string * TrackAgg) (l : tracks_t) : tracks_t :=
  match l with
  | [] => [x]
  | y :: l' =>
      if key_lt (sort_key y) (sort_key x) then y :: insert_by_key x l'
      else x :: y :: l'
  end.

Fixpoint sorted_by_key (l : tracks_t) : tracks_t :=
  match l with
  | [] => []
  | x :: l' => insert_by_key x (sorted_by_key l')
  end.

Record report_row : Type := {
  row_artist : pyval;
  row_title : pyval;
  row_shazam_track_id : string;
  row_confidence : Q;
  row_support : Z;
  row_first_seen_sec : Z;
  row_last_seen_sec : Z;
  row_video_id : string;
  row_source_audio : string
}.

(** The body of the [for tid, agg in sorted(...)] loop. *)
Definition row_of (video_id source_audio : string) (kv : string * TrackAgg) : report_row :=
  let agg := snd kv in
  {| row_artist := artist agg;
     row_title := title agg;
     row_shazam_track_id := shazam_track_id agg;
     row_confidence := round3 (confidence_max agg);
     row_support := support agg;
     row_first_seen_sec := py_int (first_seen_sec agg);
     row_last_seen_sec := py_int (last_seen_sec agg);
     row_video_id := video_id;
     row_source_audio := source_audio |}.

(** Lines 136-148: [rows]. *)
Definition report (video_id source_audio : string) (tracks : tracks_t) : list report_row :=
  map (row_of video_id source_audio) (sorted_by_key tracks).

















(** *** What the aggregates hold *)
















(** *** The rows of the report *)



Lemma round_half_even_near (x : Q) :
  (x - (1 # 2) <= inject_Z (round_half_even x))%Q /\
  (inject_Z (round_half_even x) <= x + (1 # 2))%Q.
Proof.
  unfold round_half_even.
  pose proof (Qfloor_le x) as Hlo. pose proof (Qlt_floor x) as Hhi.
  rewrite inject_Z_plus in Hhi. change (inject_Z 1) with 1%Q in Hhi.
  destruct (Qltb (x - inject_Z (Qfloor x)) (1 # 2)) eqn:E1.
  { apply Qltb_lt in E1. lra. }
  apply Qltb_ge in E1.
  destruct (Qltb (1 # 2) (x - inject_Z (Qfloor x))) eqn:E2.
  { rewrite inject_Z_plus. change (inject_Z 1) with 1%Q. lra. }
  apply Qltb_ge in E2.
  destruct (Z.even (Qfloor x)).
  - lra.
  - rewrite inject_Z_plus. change (inject_Z 1) with 1%Q. lra.
Qed.






(** *** What counts as a match *)

(** The response makes [process_one] raise when it reaches line 88: it is
    truthy and its track object is a truthy value that is not a dict. *)
Definition malformed (resp : pyval) : bool := truthy resp && malformed_track resp.

Lemma match_of_cases repr resp :
  (malformed resp = true -> match_of repr resp = Raise AttributeError) /\
  (malformed resp = false -> is_ok (match_of repr resp) = true).
Proof.
  unfold malformed, match_of.
  destruct (truthy resp); cbn [andb negb]; [|split; [discriminate|done]].
  destruct (extractors_raise_together repr resp) as [Hbad Hgood]. split.
  - intros Hm. destruct (Hbad Hm) as (-> & _). done.
  - intros Hm. destruct (Hgood Hm) as (H1 & H2 & H3).
    destruct (extract_track_id repr resp) as [[tid|]|]; [| |done];
      destruct (extract_artist_title resp) as [[a t]|]; try done.
    cbn [mbind exc_bind bind fst snd].
    destruct (_ || _); [done|].
    by destruct (extract_confidence resp).
Qed.

(** A response is aggregated only with a non-empty track id and a truthy
    artist and title, and then with the id, artist, title and confidence
    that the extractors return; a response without one of them leaves
    [tracks] as it is. *)
Theorem match_of_complete (repr : pyval -> string) (resp : pyval) :
  (forall m, match_of repr resp = Ok (Some m) ->
     m_tid m <> "" /\ truthy (m_artist m) = true /\ truthy (m_title m) = true /\
     extract_track_id repr resp = Ok (Some (m_tid m)) /\
     extract_artist_title resp = Ok (m_artist m, m_title m) /\
     extract_confidence resp = Ok (m_raw_conf m)) /\
  (forall tracks start,
     match_of repr resp = Ok None ->
     apply_result repr tracks start resp = Ok tracks).
Proof.
  split.
  - intros m. unfold match_of.
    destruct (truthy resp); cbn [negb]; [|discriminate].
    destruct (extract_track_id repr resp) as [[tid|]|]; cbn [mbind exc_bind bind];
      destruct (extract_artist_title resp) as [[a t]|]; cbn [mbind exc_bind bind fst snd];
      try discriminate.
    destruct (String.eqb tid "") eqn:Et; cbn [orb]; [discriminate|].
    destruct (truthy a) eqn:Ea; cbn [orb negb]; [|discriminate].
    destruct (truthy t) eqn:Ett; cbn [orb negb]; [|discriminate].
    destruct (extract_confidence resp) as [c|]; cbn [mbind exc_bind bind]; [|discriminate].
    intros [= <-]. cbn [m_tid m_artist m_title m_raw_conf].
    apply String.eqb_neq in Et. done.
  - intros tracks start H. unfold apply_result. by rewrite H.
Qed.

Lemma match_of_complete_witness :
  m_tid match_T1 <> "" /\ truthy (m_artist match_T1) = true.
Proof.
  destruct (proj1 (match_of_complete (fun _ => "") (resp_T1 40))
              {| m_tid := "T1"; m_artist := PStr "Artist"; m_title := PStr "Title";
                 m_raw_conf := Some (inject_Z 40 / 100)%Q |}
              ltac:(vm_compute; reflexivity)) as (H1 & H2 & _).
  split; [exact H1|exact H2].
Defined.



(** *** One run of the pipeline *)

(** One element of [enumerate(chunks)]: the index and the window. *)
Definition task : Type := (nat * window)%type.

(** The collaborators of a run: what the Shazam client answers for the
    clip of a task (or the exception it raises), whether ffmpeg extracts
    the clip, whether the [sqlite3] calls for a key go through, the clock,
    the interpreter's [str] on floats and containers, and, for the batch
    that starts at a given index, the order in which the pending oracle
    calls complete. *)
Record env : Type := {
  shazam : task -> exc pyval;
  ffmpeg_ok : task -> bool;
  sqlite_get_ok : chunk_key -> bool;
  sqlite_put_ok : chunk_key -> bool;
  time_time : Z;
  py_repr : pyval -> string;
  completion : nat -> list nat
}.

(** The arguments of [run_pipeline], with [duration] for
    [probe_duration_seconds(audio_path)], [src_hash] for
    [sha1_of_file(audio_path)] and [source_audio] for
    [Path(audio_path).name].  [asyncio.Semaphore] refuses a negative
    value and never admits a call at zero; [max_parallel] is positive. *)
Record config : Type := {
  src_hash : string;
  duration : Q;
  video_id : string;
  source_audio : string;
  chunk_seconds : Z;
  overlap_seconds : Z;
  sample_rate : Z;
  max_parallel : positive
}.

(** [chunk_key] of a window. *)
Definition make_key (cfg : config) (w : window) : chunk_key :=
  (src_hash cfg, hundredths (fst w), hundredths (snd w), sample_rate cfg).

(** What the tasks of a run share: the store, [tracks], the clips written
    to [work/] and the calls made to the oracle, in order. *)
Record world : Type := {
  cache : table;
  tracks : tracks_t;
  wavs : list task;
  oracle_calls : list task
}.

(** [process_one] up to its first suspension.  With a cached response it
    runs to its end; after a miss it extracts the clip and waits for a
    slot of the semaphore and for the oracle ([true]). *)
Definition process_one_begin (e : env) (cfg : config) (w : world) (t : task)
  : exc (world * bool) :=
  let key := make_key cfg (snd t) in
  resp ← get_chunk (sqlite_get_ok e key) (cache w) key;
  match resp with
  | PNone =>
      if ffmpeg_ok e t
      then Ok ({| cache := cache w; tracks := tracks w;
                  wavs := wavs w ++ [t]; oracle_calls := oracle_calls w |}, true)
      else Raise RuntimeError
  | _ =>
      tracks' ← apply_result (py_repr e) (tracks w) (fst (snd t)) resp;
      Ok ({| cache := cache w; tracks := tracks';
             wavs := wavs w; oracle_calls := oracle_calls w |}, false)
  end.

(** [process_one] from the answer of the oracle on: [put_chunk], then
    lines 85-118. *)
Definition process_one_resume (e : env) (cfg : config) (w : world) (t : task)
  : exc world :=
  let key := make_key cfg (snd t) in
  let resp := recognize_file (shazam e t) in
  cache' ← put_chunk (sqlite_put_ok e key) (time_time e) (cache w) key resp;
  tracks' ← apply_result (py_repr e) (tracks w) (fst (snd t)) resp;
  Ok {| cache := cache'; tracks := tracks';
        wavs := wavs w; oracle_calls := oracle_calls w |}.

(** The tasks of one batch start in order; each runs to its first
    suspension.  Returns the tasks that wait for the oracle. *)
Fixpoint begin_all (e : env) (cfg : config) (w : world) (batch : list task)
  : exc (world * list task) :=
  match batch with
  | [] => Ok (w, [])
  | t :: rest =>
'(w1, waits) ← process_one_begin e cfg w t;
      '(w2, pending) ← begin_all e cfg w1 rest;
      Ok (w2, if waits : bool then t :: pending else pending)
  end.

Fixpoint resume_all (e : env) (cfg : config) (w : world) (order : list task)
  : exc world :=
  match order with
  | [] => Ok w
  | t :: rest =>
      w' ← process_one_resume e cfg w t;
      resume_all e cfg w' rest
  end.

(** An order of completion: [sel] picks, one after the other, a position
    among the calls still pending; the calls that are left complete in the
    order of their submission. *)
Fixpoint completion_order {A} (sel : list nat) (pending : list A) : list A :=
  match sel with
  | [] => pending
  | i :: sel' =>
      match pending !! i with
      | Some x => x :: completion_order sel' (delete i pending)
      | None => completion_order sel' pending
      end
  end.

(** [await asyncio.gather] on the slice [coros[b:b+batch]].  The semaphore admits the
    waiting tasks in their order, so the calls reach the oracle in the
    order of the tasks; they complete in the order the environment
    chooses.  An exception of a task is the exception of [gather]. *)
Definition gather (e : env) (cfg : config) (b : nat) (w : world) (batch : list task)
  : exc world :=
'(w1, pending) ← begin_all e cfg w batch;
  resume_all e cfg
    {| cache := cache w1; tracks := tracks w1; wavs := wavs w1;
       oracle_calls := oracle_calls w1 ++ pending |}
    (completion_order (completion e b) pending).

Definition batch : nat := 40.

(** [range(0, n, batch)] *)
Definition batch_starts (n : nat) : list nat :=
  map (fun k => k * batch)%nat (seq 0 ((n + (batch - 1)) / batch)).

(** The [for b in range(0, len(coros), batch)] loop. *)
Fixpoint run_batches (e : env) (cfg : config) (w : world) (coros : list task)
    (bs : list nat) : exc world :=
  match bs with
  | [] => Ok w
  | b :: bs' =>
      w' ← gather e cfg b w (take batch (drop b coros));
      run_batches e cfg w' coros bs'
  end.

(** [enumerate(chunks)] *)
Definition enumerate (chunks : list window) : list task :=
  imap (fun i w => (i, w)) chunks.

Definition coros_of (cfg : config) : list task :=
  enumerate (build_chunks (duration cfg) (chunk_seconds cfg) (overlap_seconds cfg)).

(** What a run that returns leaves behind: the rows written to
    [results.json] and [results.csv], the store, and the calls made to the
    oracle. *)
Record outcome : Type := {
  rows : list report_row;
  cache_after : table;
  recognized : list task
}.

(** [run_pipeline] on the store [con].  A run that raises leaves no
    report. *)
Definition run_pipeline (e : env) (cfg : config) (con : table) : exc outcome :=
  let coros := coros_of cfg in
  w ← run_batches e cfg
        {| cache := con; tracks := []; wavs := []; oracle_calls := [] |}
        coros (batch_starts (length coros));
  Ok {| rows := report (video_id cfg) (source_audio cfg) (tracks w);
        cache_after := cache w;
        recognized := oracle_calls w |}.

(** *** Keys of the planned windows *)

Lemma hundredths_lt (x y : Q) : (x + 1 <= y)%Q -> (hundredths x < hundredths y)%Z.
Proof.
  intros Hxy. unfold hundredths.
  destruct (round_half_even_near (x * 100)) as [_ Hx].
  destruct (round_half_even_near (y * 100)) as [Hy _].
  rewrite Zlt_Qlt. lra.
Qed.

Lemma build_chunks_loop_spaced duration chunk_sec overlap_sec t :
  StronglySorted (fun a b : window => (fst a + 1 <= fst b)%Q)
    (build_chunks_loop duration chunk_sec overlap_sec t).
Proof.
  funelim (build_chunks_loop duration chunk_sec overlap_sec t); [|constructor].
  destruct (Qle_bool _ 1) eqn:Hd; [constructor|].
  constructor; [assumption|].
  eapply Forall_impl; [apply build_chunks_loop_windows|].
  intros w [Hw _]. simpl.
  assert (1 <= inject_Z (step chunk_sec overlap_sec))%Q.
  { change 1%Q with (inject_Z 1). rewrite <- Zle_Qle. unfold step. lia. }
  lra.
Qed.

(** Distinct windows of one plan have distinct keys. *)
Lemma make_key_NoDup (cfg : config) (ws : list window) :
  StronglySorted (fun a b : window => (fst a + 1 <= fst b)%Q) ws ->
  NoDup (map (make_key cfg) ws).
Proof.
  induction 1 as [|w ws Hs IH Hw]; simpl; constructor; [|done].
  rewrite list_elem_of_fmap. intros (w' & Heq & Hin).
  rewrite Forall_forall in Hw. specialize (Hw w' Hin).
  apply hundredths_lt in Hw. unfold make_key in Heq.
  assert (Hh : hundredths (fst w) = hundredths (fst w')) by congruence.
  lia.
Qed.

Definition key_of (cfg : config) (t : task) : chunk_key := make_key cfg (snd t).

Lemma enumerate_snd (ws : list window) : map snd (enumerate ws) = ws.
Proof.
  unfold enumerate.
  assert (H : forall (f : nat -> nat) l,
            map snd (imap (fun i (w : window) => (f i, w)) l) = l).
  { intros f l. revert f. induction l as [|w l IH]; intros f; simpl; [done|].
    f_equal. apply (IH (f ∘ S)). }
  apply (H id).
Qed.

Lemma coros_of_keys_NoDup (cfg : config) : NoDup (map (key_of cfg) (coros_of cfg)).
Proof.
  assert (E : map (key_of cfg) (coros_of cfg) =
              map (make_key cfg) (map snd (coros_of cfg))).
  { by rewrite map_map. }
  rewrite E. unfold coros_of. rewrite enumerate_snd.
  apply make_key_NoDup, build_chunks_loop_spaced.
Qed.

(** Two windows of one plan never share a cache key, although the key
    keeps only two decimals of the start and of the length: the starts
    are a second or more apart. *)
Theorem plan_keys_distinct (cfg : config) (i j : nat) (t t' : task) :
  coros_of cfg !! i = Some t -> coros_of cfg !! j = Some t' ->
  i <> j -> key_of cfg t <> key_of cfg t'.
Proof.
  intros Hi Hj Hne Hk. apply Hne.
  apply (NoDup_lookup (map (key_of cfg) (coros_of cfg)) i j (key_of cfg t)).
  - apply coros_of_keys_NoDup.
  - change (map (key_of cfg)) with (fmap (M:=list) (key_of cfg)).
    by rewrite list_lookup_fmap, Hi.
  - change (map (key_of cfg)) with (fmap (M:=list) (key_of cfg)).
    by rewrite list_lookup_fmap, Hj, Hk.
Qed.

(** *** What a run that returns has gone through *)

(** The key reads as [None]: no row, a row with NULL, or a stored
    [null]. *)
Definition miss (con : table) (key : chunk_key) : Prop :=
  get_chunk true con key = Ok PNone.

Lemma miss_ext (con con' : table) key : con !! key = con' !! key -> miss con key -> miss con' key.
Proof. unfold miss, get_chunk. by intros ->. Qed.

Lemma take_add_drop {A} (l : list A) (n m : nat) :
  take (n + m) l = take n l ++ take m (drop n l).
Proof.
  revert l. induction n as [|n IH]; intros [|x l]; simpl; try done.
  - by rewrite take_nil.
  - by rewrite IH.
Qed.

Lemma slices_concat {A} (l : list A) (m : nat) :
  concat (map (fun b => take batch (drop b l)) (map (fun k => k * batch)%nat (seq 0 m))) =
  take (m * batch) l.
Proof.
  induction m as [|m IH]; [done|].
  rewrite seq_S, !map_app, concat_app, IH. cbn [map concat].
  rewrite app_nil_r, <- take_add_drop. f_equal. unfold batch. lia.
Qed.

(** The batches of the loop, one after the other, are the list of
    coroutines. *)
Lemma batches_concat {A} (l : list A) :
  concat (map (fun b => take batch (drop b l)) (batch_starts (length l))) = l.
Proof.
  unfold batch_starts. rewrite slices_concat. apply take_ge.
  unfold batch.
  pose proof (Nat.div_mod_eq (length l + (40 - 1)) 40) as Hdm.
  pose proof (Nat.mod_upper_bound (length l + (40 - 1)) 40) as Hlt.
  lia.
Qed.

Lemma process_one_begin_ok e cfg w t w1 waits :
  process_one_begin e cfg w t = Ok (w1, waits) ->
  cache w1 = cache w /\
  sqlite_get_ok e (key_of cfg t) = true /\
  (miss (cache w) (key_of cfg t) -> ffmpeg_ok e t = true /\ waits = true).
Proof.
  unfold process_one_begin, miss, key_of.
  destruct (sqlite_get_ok e (make_key cfg t.2)) eqn:Hget; [|discriminate].
  destruct (get_chunk true (cache w) (make_key cfg t.2)) as [resp|] eqn:Hresp;
    [|discriminate].
  cbn [mbind exc_bind bind].
  destruct resp;
    try (destruct (apply_result _ _ _ _); cbn [mbind exc_bind bind];
         [intros [= <- <-]; repeat split; discriminate | discriminate]).
  destruct (ffmpeg_ok e t); [|discriminate].
  intros [= <- <-]. done.
Qed.

Lemma begin_all_ok e cfg batch w w1 pending :
  begin_all e cfg w batch = Ok (w1, pending) ->
  cache w1 = cache w /\
  (forall t, t ∈ batch ->
     sqlite_get_ok e (key_of cfg t) = true /\
     (miss (cache w) (key_of cfg t) -> ffmpeg_ok e t = true /\ t ∈ pending)) /\
  (forall t, t ∈ pending -> t ∈ batch).
Proof.
  revert w w1 pending. induction batch as [|t0 rest IH]; intros w w1 pending; simpl.
  - intros [= <- <-]. split; [done|]. split; intros t Ht; by apply elem_of_nil in Ht.
  - destruct (process_one_begin e cfg w t0) as [[w0 waits]|] eqn:H0; [|discriminate].
    cbn [mbind exc_bind bind].
    destruct (begin_all e cfg w0 rest) as [[w2 pending']|] eqn:Hrest; [|discriminate].
    cbn [mbind exc_bind bind]. intros [= <- <-].
    apply process_one_begin_ok in H0 as (Hc0 & Hget0 & Hmiss0).
    apply IH in Hrest as (Hc & Hall & Hsub).
    split; [congruence|]. split.
    + intros t Ht. apply elem_of_cons in Ht as [->|Ht].
      * split; [done|]. intros Hm. destruct (Hmiss0 Hm) as [Hf ->].
        split; [done|]. apply elem_of_cons. by left.
      * rewrite Hc0 in Hall. destruct (Hall t Ht) as [Hg Hm]. split; [done|].
        intros Hmiss. destruct (Hm Hmiss) as [Hf Hp]. split; [done|].
        destruct waits; [apply elem_of_cons; by right|done].
    + intros t Ht. apply elem_of_cons.
      destruct waits.
      * apply elem_of_cons in Ht as [->|Ht]; [by left|right; by apply Hsub].
      * right. by apply Hsub.
Qed.

Lemma process_one_resume_ok e cfg w t w' :
  process_one_resume e cfg w t = Ok w' ->
  sqlite_put_ok e (key_of cfg t) = true /\
  (forall k, k <> key_of cfg t -> cache w' !! k = cache w !! k).
Proof.
  unfold process_one_resume, put_chunk, key_of.
  destruct (sqlite_put_ok e (make_key cfg t.2)); [|discriminate].
  cbn [mbind exc_bind bind].
  destruct (apply_result _ _ _ _); [|discriminate].
  cbn [mbind exc_bind bind]. intros [= <-]. split; [done|].
  intros k Hk. cbn [cache]. by rewrite lookup_insert_ne.
Qed.

Lemma resume_all_ok e cfg order w w' :
  resume_all e cfg w order = Ok w' ->
  (forall t, t ∈ order -> sqlite_put_ok e (key_of cfg t) = true) /\
  (forall k, k ∉ map (key_of cfg) order -> cache w' !! k = cache w !! k).
Proof.
  revert w. induction order as [|t0 rest IH]; intros w; simpl.
  - intros [= <-]. split; [|done]. intros t Ht. by apply elem_of_nil in Ht.
  - destruct (process_one_resume e cfg w t0) as [w0|] eqn:H0; [|discriminate].
    cbn [mbind exc_bind bind]. intros Hrest.
    apply process_one_resume_ok in H0 as [Hput Hother].
    apply IH in Hrest as [Hall Hc].
    split.
    + intros t Ht. apply elem_of_cons in Ht as [->|Ht]; [done|by apply Hall].
    + intros k Hk. rewrite not_elem_of_cons in Hk. destruct Hk as [Hne Hk].
      rewrite Hc by done. by apply Hother.
Qed.

Lemma completion_order_perm {A} (sel : list nat) (pending : list A) :
  Permutation (completion_order sel pending) pending.
Proof.
  revert pending. induction sel as [|i sel IH]; intros pending; simpl; [done|].
  destruct (pending !! i) as [x|] eqn:E; [|apply IH].
  rewrite IH. symmetry. by apply delete_Permutation.
Qed.

Lemma gather_ok e cfg b w batch w' :
  gather e cfg b w batch = Ok w' ->
  (forall t, t ∈ batch ->
     sqlite_get_ok e (key_of cfg t) = true /\
     (miss (cache w) (key_of cfg t) ->
      ffmpeg_ok e t = true /\ sqlite_put_ok e (key_of cfg t) = true)) /\
  (forall k, k ∉ map (key_of cfg) batch -> cache w' !! k = cache w !! k).
Proof.
  unfold gather.
  destruct (begin_all e cfg w batch) as [[w1 pending]|] eqn:Hb; [|discriminate].
  cbn [mbind exc_bind bind]. intros Hr.
  apply begin_all_ok in Hb as (Hc & Hall & Hsub).
  apply resume_all_ok in Hr as [Hput Hother]. cbn [cache] in Hother.
  split.
  - intros t Ht. destruct (Hall t Ht) as [Hg Hm]. split; [done|].
    intros Hmiss. destruct (Hm Hmiss) as [Hf Hp]. split; [done|].
    apply Hput. by rewrite completion_order_perm.
  - intros k Hk. rewrite Hother, Hc; [done|].
    intros Hin. apply Hk.
    apply list_elem_of_fmap in Hin as (t & -> & Ht).
    apply list_elem_of_fmap. exists t. split; [done|].
    apply Hsub. by rewrite <- (completion_order_perm (completion e b)).
Qed.

Lemma run_batches_ok e cfg coros bs w w' :
  NoDup (map (key_of cfg) (concat (map (fun b => take batch (drop b coros)) bs))) ->
  run_batches e cfg w coros bs = Ok w' ->
  forall t, t ∈ concat (map (fun b => take batch (drop b coros)) bs) ->
    sqlite_get_ok e (key_of cfg t) = true /\
    (miss (cache w) (key_of cfg t) ->
     ffmpeg_ok e t = true /\ sqlite_put_ok e (key_of cfg t) = true).
Proof.
  revert w. induction bs as [|b bs IH]; intros w; simpl.
  - intros _ _ t Ht. by apply elem_of_nil in Ht.
  - rewrite map_app. intros Hnd.
    apply NoDup_app in Hnd as (_ & Hdisj & Hnd').
    destruct (gather e cfg b w (take batch (drop b coros))) as [w0|] eqn:Hg;
      [|discriminate].
    cbn [mbind exc_bind bind]. intros Hrest t Ht.
    apply gather_ok in Hg as [Hall Hother].
    apply elem_of_app in Ht as [Ht|Ht]; [by apply Hall|].
    destruct (IH w0 Hnd' Hrest t Ht) as [Hget Hm]. split; [done|].
    intros Hmiss. apply Hm. eapply miss_ext; [|exact Hmiss].
    symmetry. apply Hother. intros Hin. eapply Hdisj; [exact Hin|].
    apply list_elem_of_fmap. by exists t.
Qed.

(** A run that returns has read the store for every window without an
    error, and for every window that the store did not answer it has
    extracted the clip and written the answer of the oracle without an
    error. *)
Lemma run_pipeline_ok e cfg con o :
  run_pipeline e cfg con = Ok o ->
  forall t, t ∈ coros_of cfg ->
    sqlite_get_ok e (key_of cfg t) = true /\
    (miss con (key_of cfg t) ->
     ffmpeg_ok e t = true /\ sqlite_put_ok e (key_of cfg t) = true).
Proof.
  unfold run_pipeline.
  destruct (run_batches _ _ _ _ _) as [w|] eqn:Hrun; [|discriminate].
  intros _ t Ht.
  eapply (run_batches_ok e cfg (coros_of cfg)) in Hrun.
  - exact Hrun.
  - rewrite batches_concat. apply coros_of_keys_NoDup.
  - by rewrite batches_concat.
Qed.

(** *** What a run sends to the oracle and leaves in the store *)

(** [miss], decided. *)
Definition is_miss (con : table) (key : chunk_key) : bool :=
  match get_chunk true con key with
  | Ok PNone => true
  | _ => false
  end.

Lemma is_miss_spec con key : is_miss con key = true <-> miss con key.
Proof.
  unfold is_miss, miss. destruct (get_chunk true con key) as [[]|]; split; congruence.
Qed.

Lemma is_miss_ext (con con' : table) key :
  con !! key = con' !! key -> is_miss con key = is_miss con' key.
Proof. unfold is_miss, get_chunk. by intros ->. Qed.

(** What the gateway returns for the clip of a task, and the row that
    [put_chunk] writes for it. *)
Definition answer (e : env) (t : task) : pyval := recognize_file (shazam e t).

Definition answer_row (e : env) (t : task) : row :=
  Row (time_time e) (if truthy (answer e t) then Some (answer e t) else None).

Lemma filter_iff_in {A} (P Q : A -> Prop) `{!forall x, Decision (P x)}
    `{!forall x, Decision (Q x)} (l : list A) :
  (forall x, x ∈ l -> P x <-> Q x) -> filter P l = filter Q l.
Proof.
  induction l as [|x l IH]; intros HPQ; [done|].
  rewrite !filter_cons.
  assert (Hx : P x <-> Q x) by (apply HPQ; left).
  rewrite IH by (intros y Hy; apply HPQ; by right).
  destruct (decide (P x)), (decide (Q x)); tauto.
Qed.

Lemma process_one_begin_char e cfg w t w1 waits :
  process_one_begin e cfg w t = Ok (w1, waits) ->
  cache w1 = cache w /\ oracle_calls w1 = oracle_calls w /\
  waits = is_miss (cache w) (key_of cfg t).
Proof.
  unfold process_one_begin, is_miss, key_of.
  destruct (sqlite_get_ok e (make_key cfg t.2)); [|discriminate].
  destruct (get_chunk true (cache w) (make_key cfg t.2)) as [resp|]; [|discriminate].
  cbn [mbind exc_bind bind].
  destruct resp;
    try (destruct (apply_result _ _ _ _); cbn [mbind exc_bind bind];
         [by intros [= <- <-] | discriminate]).
  destruct (ffmpeg_ok e t); [|discriminate]. by intros [= <- <-].
Qed.

Lemma begin_all_char e cfg batch w w1 pending :
  begin_all e cfg w batch = Ok (w1, pending) ->
  cache w1 = cache w /\ oracle_calls w1 = oracle_calls w /\
  pending = filter (fun t => is_miss (cache w) (key_of cfg t) = true) batch.
Proof.
  revert w w1 pending. induction batch as [|t0 rest IH]; intros w w1 pending; simpl.
  - by intros [= <- <-].
  - destruct (process_one_begin e cfg w t0) as [[w0 waits]|] eqn:H0; [|discriminate].
    cbn [mbind exc_bind bind].
    destruct (begin_all e cfg w0 rest) as [[w2 pending']|] eqn:Hrest; [|discriminate].
    cbn [mbind exc_bind bind]. intros [= <- <-].
    apply process_one_begin_char in H0 as (Hc0 & Ho0 & ->).
    apply IH in Hrest as (Hc & Ho & ->).
    split; [congruence|]. split; [congruence|].
    rewrite filter_cons, Hc0.
    destruct (is_miss (cache w) (key_of cfg t0)); by case_decide.
Qed.

Lemma process_one_resume_char e cfg w t w' :
  process_one_resume e cfg w t = Ok w' ->
  cache w' = <[key_of cfg t := answer_row e t]> (cache w) /\
  oracle_calls w' = oracle_calls w.
Proof.
  unfold process_one_resume, put_chunk, key_of, answer_row, answer.
  destruct (sqlite_put_ok e (make_key cfg t.2)); [|discriminate].
  cbn [mbind exc_bind bind].
  destruct (apply_result _ _ _ _); [|discriminate].
  cbn [mbind exc_bind bind]. by intros [= <-].
Qed.

Lemma resume_all_char e cfg order w w' :
  NoDup (map (key_of cfg) order) ->
  resume_all e cfg w order = Ok w' ->
  oracle_calls w' = oracle_calls w /\
  (forall t, t ∈ order -> cache w' !! key_of cfg t = Some (answer_row e t)) /\
  (forall k, k ∉ map (key_of cfg) order -> cache w' !! k = cache w !! k).
Proof.
  revert w. induction order as [|t0 rest IH]; intros w; simpl.
  - intros _ [= <-]. split; [done|]. split; [|done].
    intros t Ht. by apply elem_of_nil in Ht.
  - intros Hnd. apply NoDup_cons in Hnd as [Hk0 Hnd].
    destruct (process_one_resume e cfg w t0) as [w0|] eqn:H0; [|discriminate].
    cbn [mbind exc_bind bind]. intros Hrest.
    apply process_one_resume_char in H0 as [Hc0 Ho0].
    apply (IH _ Hnd) in Hrest as (Ho & Hin & Hout).
    split; [congruence|]. split.
    + intros t Ht. apply elem_of_cons in Ht as [->|Ht]; [|by apply Hin].
      rewrite Hout by done. rewrite Hc0. apply lookup_insert_eq.
    + intros k Hk. apply not_elem_of_cons in Hk as [Hne Hk].
      rewrite Hout by done. rewrite Hc0. by apply lookup_insert_ne.
Qed.

Lemma gather_char e cfg b w batch w' :
  NoDup (map (key_of cfg) batch) ->
  gather e cfg b w batch = Ok w' ->
  oracle_calls w' =
    oracle_calls w ++ filter (fun t => is_miss (cache w) (key_of cfg t) = true) batch /\
  (forall t, t ∈ batch ->
     cache w' !! key_of cfg t =
       if is_miss (cache w) (key_of cfg t) then Some (answer_row e t)
       else cache w !! key_of cfg t) /\
  (forall k, k ∉ map (key_of cfg) batch -> cache w' !! k = cache w !! k).
Proof.
  intros Hnd. unfold gather.
  destruct (begin_all e cfg w batch) as [[w1 pending]|] eqn:Hb; [|discriminate].
  cbn [mbind exc_bind bind]. intros Hr.
  apply begin_all_char in Hb as (Hc & Ho & Hp).
  assert (Hsub : forall t, t ∈ pending -> t ∈ batch).
  { intros t. rewrite Hp. by intros [_ ?]%list_elem_of_filter. }
  assert (Hndp : NoDup (map (key_of cfg) (completion_order (completion e b) pending))).
  { rewrite completion_order_perm, Hp.
    apply (sublist_NoDup _ _ Hnd).
    change (map (key_of cfg)) with (fmap (M:=list) (key_of cfg)).
    apply fmap_sublist, sublist_filter. }
  apply (resume_all_char _ _ _ _ _ Hndp) in Hr as (Ho' & Hin & Hout).
  cbn [cache oracle_calls] in *.
  split; [by rewrite Ho', Ho, Hp|]. split.
  - intros t Ht. destruct (is_miss (cache w) (key_of cfg t)) eqn:Hm.
    + apply Hin. rewrite completion_order_perm, Hp.
      apply list_elem_of_filter. done.
    + rewrite Hout, Hc; [done|].
      intros Hk. apply list_elem_of_fmap in Hk as (t' & Hkk & Ht').
      rewrite completion_order_perm, Hp in Ht'.
      apply list_elem_of_filter in Ht' as [Hm' Ht'].
      rewrite <- Hkk in Hm'. congruence.
  - intros k Hk. rewrite Hout, Hc; [done|].
    intros Hk'. apply Hk.
    apply list_elem_of_fmap in Hk' as (t' & -> & Ht').
    apply list_elem_of_fmap. exists t'. split; [done|].
    apply Hsub. by rewrite <- (completion_order_perm (completion e b)).
Qed.

Lemma run_batches_char e cfg coros bs w w' :
  NoDup (map (key_of cfg) (concat (map (fun b => take batch (drop b coros)) bs))) ->
  run_batches e cfg w coros bs = Ok w' ->
  oracle_calls w' =
    oracle_calls w ++
    filter (fun t => is_miss (cache w) (key_of cfg t) = true)
      (concat (map (fun b => take batch (drop b coros)) bs)) /\
  (forall t, t ∈ concat (map (fun b => take batch (drop b coros)) bs) ->
     cache w' !! key_of cfg t =
       if is_miss (cache w) (key_of cfg t) then Some (answer_row e t)
       else cache w !! key_of cfg t) /\
  (forall k, k ∉ map (key_of cfg) (concat (map (fun b => take batch (drop b coros)) bs)) ->
     cache w' !! k = cache w !! k).
Proof.
  revert w. induction bs as [|b bs IH]; intros w; simpl.
  - intros _ [= <-]. split; [by rewrite app_nil_r|]. split; [|done].
    intros t Ht. by apply elem_of_nil in Ht.
  - rewrite map_app. intros Hnd.
    apply NoDup_app in Hnd as (Hnd1 & Hdisj & Hnd2).
    destruct (gather e cfg b w (take batch (drop b coros))) as [w0|] eqn:Hg;
      [|discriminate].
    cbn [mbind exc_bind bind]. intros Hrest.
    apply (gather_char _ _ _ _ _ _ Hnd1) in Hg as (Ho1 & Hin1 & Hout1).
    apply (IH _ Hnd2) in Hrest as (Ho2 & Hin2 & Hout2).
    assert (Hlater : forall t,
              t ∈ concat (map (fun b => take batch (drop b coros)) bs) ->
              cache w0 !! key_of cfg t = cache w !! key_of cfg t).
    { intros t Ht. apply Hout1. intros Hk. eapply Hdisj; [exact Hk|].
      apply list_elem_of_fmap. by exists t. }
    split; [|split].
    + rewrite Ho2, Ho1, filter_app, <- app_assoc. f_equal. f_equal.
      apply filter_iff_in. intros t Ht.
      by rewrite (is_miss_ext (cache w0) (cache w) _ (Hlater t Ht)).
    + intros t Ht. apply elem_of_app in Ht as [Ht|Ht].
      * rewrite Hout2; [by apply Hin1|].
        intros Hk. eapply Hdisj; [|exact Hk].
        apply list_elem_of_fmap. by exists t.
      * rewrite (Hin2 t Ht).
        by rewrite (is_miss_ext (cache w0) (cache w) _ (Hlater t Ht)), (Hlater t Ht).
    + intros k Hk. rewrite not_elem_of_app in Hk. destruct Hk as [Hk1 Hk2].
      by rewrite Hout2, Hout1.
Qed.

Lemma run_pipeline_char e cfg con o :
  run_pipeline e cfg con = Ok o ->
  recognized o =
    filter (fun t => is_miss con (key_of cfg t) = true) (coros_of cfg) /\
  (forall t, t ∈ coros_of cfg ->
     cache_after o !! key_of cfg t =
       if is_miss con (key_of cfg t) then Some (answer_row e t)
       else con !! key_of cfg t) /\
  (forall k, k ∉ map (key_of cfg) (coros_of cfg) -> cache_after o !! k = con !! k).
Proof.
  unfold run_pipeline.
  destruct (run_batches _ _ _ _ _) as [w|] eqn:Hrun; [|discriminate].
  cbn [mbind exc_bind bind]. intros [= <-]. cbn [recognized cache_after].
  apply run_batches_char in Hrun.
  - rewrite batches_concat in Hrun. exact Hrun.
  - rewrite batches_concat. apply coros_of_keys_NoDup.
Qed.

(** A run that returns has sent to the oracle the windows that the store
    did not answer, each once and in the order of the plan; it leaves for
    each of them the row of the gateway's answer (NULL for [None]) and every
    other row as it was. *)
Theorem run_pipeline_calls (e : env) (cfg : config) (con : table) (o : outcome) :
  run_pipeline e cfg con = Ok o ->
  recognized o =
    filter (fun t => is_miss con (key_of cfg t) = true) (coros_of cfg) /\
  NoDup (recognized o) /\
  (forall t, t ∈ coros_of cfg ->
     cache_after o !! key_of cfg t =
       if is_miss con (key_of cfg t) then Some (answer_row e t)
       else con !! key_of cfg t) /\
  (forall k, k ∉ map (key_of cfg) (coros_of cfg) -> cache_after o !! k = con !! k).
Proof.
  intros Hrun. destruct (run_pipeline_char _ _ _ _ Hrun) as (Hr & Hin & Hout).
  split; [done|]. split; [|done].
  rewrite Hr. apply NoDup_filter.
  eapply NoDup_fmap_1. apply coros_of_keys_NoDup.
Qed.

(** [v is None] *)
Definition is_None (v : pyval) : bool :=
  match v with PNone => true | _ => false end.

Lemma answer_cases e t :
  answer e t = PNone \/ (truthy (answer e t) = true /\ answer e t <> PNone).
Proof.
  unfold answer, recognize_file.
  destruct (shazam e t) as [[| b | z | q | s0 | l | d]|x]; try by left.
  destruct (negb (truthy (PDict d)) || _) eqn:E; [by left|].
  right. apply orb_false_iff in E as [E _]. apply negb_false_iff in E. done.
Qed.

(** Of two runs in a row over the same source, parameters and
    collaborators, the second sends to the oracle exactly the windows that
    the store did not answer at first and for which the gateway returned
    [None]: a window with a match is never sent again. *)
Theorem second_run_calls (e : env) (cfg : config) (con : table) (o1 o2 : outcome) :
  run_pipeline e cfg con = Ok o1 ->
  run_pipeline e cfg (cache_after o1) = Ok o2 ->
  recognized o2 =
    filter (fun t => is_miss con (key_of cfg t) && is_None (answer e t) = true)
      (coros_of cfg).
Proof.
  intros H1 H2.
  destruct (run_pipeline_char _ _ _ _ H1) as (_ & Hin & _).
  destruct (run_pipeline_char _ _ _ _ H2) as (-> & _ & _).
  apply filter_iff_in. intros t Ht.
  unfold is_miss at 1. unfold get_chunk. rewrite (Hin t Ht).
  destruct (is_miss con (key_of cfg t)) eqn:Hm; cbn [andb].
  - cbn [answer_row shazam_json].
    destruct (answer_cases e t) as [Hn|[Htr Hne]].
    + rewrite Hn. done.
    + rewrite Htr. by destruct (answer e t).
  - unfold is_miss, get_chunk in Hm. by rewrite Hm.
Qed.

(** *** When a run returns *)

(** The task of a window goes through on the store [con]: the read of its
    key succeeds, and either the store answers with a response that is not
    malformed, or the clip is extracted, the answer of the gateway is
    written and that answer is not malformed. *)
Definition goes_through (e : env) (cfg : config) (con : table) (t : task) : bool :=
  sqlite_get_ok e (key_of cfg t) &&
  match get_chunk true con (key_of cfg t) with
  | Ok PNone =>
      ffmpeg_ok e t && sqlite_put_ok e (key_of cfg t) && negb (malformed (answer e t))
  | Ok resp => negb (malformed resp)
  | Raise _ => false
  end.

(** [process_one] reaches its first suspension, or its end, on the store
    [con]. *)
Definition begin_ok (e : env) (cfg : config) (con : table) (t : task) : bool :=
  sqlite_get_ok e (key_of cfg t) &&
  match get_chunk true con (key_of cfg t) with
  | Ok PNone => ffmpeg_ok e t
  | Ok resp => negb (malformed resp)
  | Raise _ => false
  end.

(** [process_one] reaches its end from the answer of the oracle on. *)
Definition resume_ok (e : env) (cfg : config) (t : task) : bool :=
  sqlite_put_ok e (key_of cfg t) && negb (malformed (answer e t)).

Lemma goes_through_split e cfg con t :
  goes_through e cfg con t =
  begin_ok e cfg con t && (if is_miss con (key_of cfg t) then resume_ok e cfg t else true).
Proof.
  unfold goes_through, begin_ok, resume_ok, is_miss.
  destruct (sqlite_get_ok e (key_of cfg t)); [|done]. cbn [andb].
  destruct (get_chunk true con (key_of cfg t)) as [[]|];
    by rewrite ?andb_true_r, ?andb_assoc.
Qed.

Lemma goes_through_ext (e : env) (cfg : config) (con con' : table) (t : task) :
  con !! key_of cfg t = con' !! key_of cfg t ->
  goes_through e cfg con t = goes_through e cfg con' t.
Proof. unfold goes_through, get_chunk. by intros ->. Qed.

Lemma apply_result_is_ok repr tracks start resp :
  is_ok (apply_result repr tracks start resp) = negb (malformed resp).
Proof.
  unfold apply_result. destruct (match_of_cases repr resp) as [Hbad Hgood].
  destruct (malformed resp).
  - by rewrite (Hbad eq_refl).
  - specialize (Hgood eq_refl). by destruct (match_of repr resp).
Qed.

Lemma process_one_begin_is_ok e cfg w t :
  is_ok (process_one_begin e cfg w t) = begin_ok e cfg (cache w) t.
Proof.
  unfold process_one_begin, begin_ok, key_of.
  destruct (sqlite_get_ok e (make_key cfg t.2)); [|done].
  destruct (get_chunk true (cache w) (make_key cfg t.2)) as [resp|]; [|done].
  cbn [mbind exc_bind bind andb].
  destruct resp;
    try (rewrite <- (apply_result_is_ok (py_repr e) (tracks w) (fst (snd t)));
         by destruct (apply_result _ _ _ _)).
  by destruct (ffmpeg_ok e t).
Qed.

Lemma begin_all_is_ok e cfg batch w :
  is_ok (begin_all e cfg w batch) = forallb (begin_ok e cfg (cache w)) batch.
Proof.
  revert w. induction batch as [|t0 rest IH]; intros w; simpl; [done|].
  rewrite <- process_one_begin_is_ok.
  destruct (process_one_begin e cfg w t0) as [[w0 waits]|] eqn:H0; [|done].
  cbn [mbind exc_bind bind is_ok andb].
  apply process_one_begin_char in H0 as (Hc0 & _ & _).
  rewrite <- Hc0, <- IH.
  by destruct (begin_all e cfg w0 rest) as [[w2 pending']|].
Qed.

Lemma process_one_resume_is_ok e cfg w t :
  is_ok (process_one_resume e cfg w t) = resume_ok e cfg t.
Proof.
  unfold process_one_resume, resume_ok, put_chunk, key_of, answer.
  destruct (sqlite_put_ok e (make_key cfg t.2)); [|done].
  cbn [mbind exc_bind bind andb].
  rewrite <- (apply_result_is_ok (py_repr e) (tracks w) (fst (snd t))).
  by destruct (apply_result _ _ _ _).
Qed.

Lemma resume_all_is_ok e cfg order w :
  is_ok (resume_all e cfg w order) = forallb (resume_ok e cfg) order.
Proof.
  revert w. induction order as [|t0 rest IH]; intros w; simpl; [done|].
  rewrite <- (process_one_resume_is_ok e cfg w t0).
  destruct (process_one_resume e cfg w t0) as [w0|]; [|done].
  cbn [mbind exc_bind bind is_ok andb]. apply IH.
Qed.

Lemma forallb_perm {A} (f : A -> bool) (l l' : list A) :
  Permutation l l' -> forallb f l = forallb f l'.
Proof.
  induction 1 as [|x l l' _ IH|x y l|l l' l'' _ IH1 _ IH2]; simpl.
  - done.
  - by rewrite IH.
  - by destruct (f x), (f y).
  - congruence.
Qed.

Lemma forallb_filter_if {A} (p g : A -> bool) (l : list A) :
  forallb g (filter (fun x => p x = true) l) =
  forallb (fun x => if p x then g x else true) l.
Proof.
  induction l as [|x l IH]; [done|].
  rewrite filter_cons. simpl. rewrite <- IH.
  destruct (p x); by case_decide.
Qed.

Lemma forallb_andb {A} (f g : A -> bool) (l : list A) :
  forallb (fun x => f x && g x) l = forallb f l && forallb g l.
Proof.
  induction l as [|x l IH]; [done|]. simpl. rewrite IH.
  destruct (f x), (g x), (forallb f l), (forallb g l); done.
Qed.

Lemma forallb_ext_in {A} (f g : A -> bool) (l : list A) :
  (forall x, x ∈ l -> f x = g x) -> forallb f l = forallb g l.
Proof.
  induction l as [|x l IH]; intros H; [done|]. simpl.
  rewrite (H x) by left. rewrite IH; [done|]. intros y Hy. apply H. by right.
Qed.

Lemma gather_is_ok e cfg b w batch :
  is_ok (gather e cfg b w batch) = forallb (goes_through e cfg (cache w)) batch.
Proof.
  rewrite (forallb_ext_in _ _ _ (fun t _ => goes_through_split e cfg (cache w) t)).
  rewrite forallb_andb, <- begin_all_is_ok. unfold gather.
  destruct (begin_all e cfg w batch) as [[w1 pending]|] eqn:Hb; [|done].
  cbn [mbind exc_bind bind is_ok andb].
  apply begin_all_char in Hb as (_ & _ & ->).
  rewrite resume_all_is_ok, (forallb_perm _ _ _ (completion_order_perm _ _)).
  apply forallb_filter_if.
Qed.

Lemma run_batches_is_ok e cfg coros bs w :
  NoDup (map (key_of cfg) (concat (map (fun b => take batch (drop b coros)) bs))) ->
  is_ok (run_batches e cfg w coros bs) =
  forallb (goes_through e cfg (cache w))
    (concat (map (fun b => take batch (drop b coros)) bs)).
Proof.
  revert w. induction bs as [|b bs IH]; intros w; simpl; [done|].
  rewrite map_app. intros Hnd.
  apply NoDup_app in Hnd as (Hnd1 & Hdisj & Hnd2).
  rewrite forallb_app, <- (gather_is_ok e cfg b).
  destruct (gather e cfg b w (take batch (drop b coros))) as [w0|] eqn:Hg; [|done].
  cbn [mbind exc_bind bind is_ok andb].
  rewrite (IH _ Hnd2). apply forallb_ext_in. intros t Ht.
  apply goes_through_ext.
  apply gather_ok in Hg as [_ Hother]. apply Hother.
  intros Hk. eapply Hdisj; [exact Hk|].
  apply list_elem_of_fmap. by exists t.
Qed.

Lemma run_pipeline_is_ok e cfg con :
  is_ok (run_pipeline e cfg con) = forallb (goes_through e cfg con) (coros_of cfg).
Proof.
  unfold run_pipeline.
  pose proof (run_batches_is_ok e cfg (coros_of cfg) (batch_starts (length (coros_of cfg)))
                {| cache := con; tracks := []; wavs := []; oracle_calls := [] |}) as H.
  rewrite batches_concat in H. cbn [cache] in H.
  rewrite <- H by apply coros_of_keys_NoDup.
  by destruct (run_batches _ _ _ _ _).
Qed.


(** The collaborators [e] with another order of completion. *)
Definition with_completion (e : env) (c : nat -> list nat) : env :=
  {| shazam := shazam e; ffmpeg_ok := ffmpeg_ok e;
     sqlite_get_ok := sqlite_get_ok e; sqlite_put_ok := sqlite_put_ok e;
     time_time := time_time e; py_repr := py_repr e; completion := c |}.

(** The order in which the oracle calls of a batch complete changes
    neither whether the run returns, nor the calls it makes, nor the store
    it leaves. *)
Theorem completion_order_irrelevant (e : env) (c : nat -> list nat) (cfg : config)
    (con : table) :
  is_ok (run_pipeline (with_completion e c) cfg con) = is_ok (run_pipeline e cfg con) /\
  (forall o o',
     run_pipeline e cfg con = Ok o ->
     run_pipeline (with_completion e c) cfg con = Ok o' ->
     recognized o' = recognized o /\ cache_after o' = cache_after o).
Proof.
  split.
  - by rewrite !run_pipeline_is_ok.
  - intros o o' H H'.
    destruct (run_pipeline_char _ _ _ _ H) as (Hr & Hin & Hout).
    destruct (run_pipeline_char _ _ _ _ H') as (Hr' & Hin' & Hout').
    split; [congruence|].
    apply map_eq. intros k.
    destruct (decide (k ∈ map (key_of cfg) (coros_of cfg))) as [Hk|Hk].
    + apply list_elem_of_fmap in Hk as (t & -> & Ht).
      by rewrite (Hin t Ht), (Hin' t Ht).
    + by rewrite Hout, Hout'.
Qed.

(** *** Runs on concrete sources *)

(** A collaborator set without faults: the oracle answers every clip with
    a document that has no ["track"]. *)
Definition env_no_match : env :=
  {| shazam := fun _ => Ok (PDict {[ "matches" := PList [] ]});
     ffmpeg_ok := fun _ => true;
     sqlite_get_ok := fun _ => true;
     sqlite_put_ok := fun _ => true;
     time_time := 1700000000;
     py_repr := fun _ => "";
     completion := fun _ => [] |}.

Definition config_of (duration : Q) : config :=
  {| src_hash := "da39a3ee5e6b4b0d3255bfef95601890afd80709";
     duration := duration;
     video_id := "video";
     source_audio := "set.m4a";
     chunk_seconds := 30;
     overlap_seconds := 10;
     sample_rate := 16000;
     max_parallel := 4 |}.

(** A source of ten seconds has the single window [(0, 10)]. *)
Example coros_of_ten_seconds : coros_of (config_of 10) = [(0%nat, (0%Q, 10%Q))].
Proof. vm_compute. reflexivity. Qed.

(** Two runs in a row over the same source, parameters and store. *)
Definition run_twice (e : env) (cfg : config) (con : table) : exc (outcome * outcome) :=
  o1 ← run_pipeline e cfg con;
  o2 ← run_pipeline e cfg (cache_after o1);
  Ok (o1, o2).

Lemma run_twice_elim e cfg con (P : outcome -> outcome -> Prop) :
  match run_twice e cfg con with
  | Ok (o1, o2) => P o1 o2
  | Raise _ => False
  end ->
  exists o1 o2,
    run_pipeline e cfg con = Ok o1 /\
    run_pipeline e cfg (cache_after o1) = Ok o2 /\
    P o1 o2.
Proof.
  unfold run_twice.
  destruct (run_pipeline e cfg con) as [o1|] eqn:E1; [|done].
  cbn [mbind exc_bind bind].
  destruct (run_pipeline e cfg (cache_after o1)) as [o2|] eqn:E2; [|done].
  cbn [mbind exc_bind bind]. intros HP. exists o1, o2. repeat split; assumption.
Qed.

(** C1.  What the code does where the claim asks for no further oracle
    call: the first run over a source whose only window has no match
    writes the row with NULL, and the second run over the same source,
    parameters and store submits the window to the oracle again. *)
Theorem second_run_recognizes_again :
  exists o1 o2,
    run_pipeline env_no_match (config_of 10) ∅ = Ok o1 /\
    run_pipeline env_no_match (config_of 10) (cache_after o1) = Ok o2 /\
    recognized o1 = [(0%nat, (0%Q, 10%Q))] /\
    cache_after o1 !! make_key (config_of 10) (0%Q, 10%Q) =
      Some (Row 1700000000 None) /\
    recognized o2 = [(0%nat, (0%Q, 10%Q))].
Proof.
  apply run_twice_elim. vm_compute. repeat split.
Qed.

(** ffmpeg fails on the second of the five windows of a source of 100
    seconds. *)
Definition env_ffmpeg_fails : env :=
  {| shazam := shazam env_no_match;
     ffmpeg_ok := fun t => negb (fst t =? 1)%nat;
     sqlite_get_ok := fun _ => true;
     sqlite_put_ok := fun _ => true;
     time_time := 1700000000;
     py_repr := fun _ => "";
     completion := fun _ => [] |}.

(** The claim as stated fails: the run does not complete. *)
Lemma run_with_failed_extraction :
  ffmpeg_ok env_ffmpeg_fails (1%nat, (20%Q, 30%Q)) = false /\
  run_pipeline env_ffmpeg_fails (config_of 100) ∅ = Raise RuntimeError.
Proof. split; [reflexivity|]. vm_compute. reflexivity. Qed.

(** C3 (amended).  When the clip of a window that the store does not
    answer cannot be extracted, the run raises: it does not complete and
    leaves no report. *)
Theorem ffmpeg_failure_aborts (e : env) (cfg : config) (con : table) (t : task) :
  t ∈ coros_of cfg ->
  miss con (key_of cfg t) ->
  ffmpeg_ok e t = false ->
  is_ok (run_pipeline e cfg con) = false.
Proof.
  intros Ht Hmiss Hfail.
  destruct (run_pipeline e cfg con) as [o|] eqn:Hrun; [|done].
  destruct (run_pipeline_ok e cfg con o Hrun t Ht) as [_ H].
  destruct (H Hmiss) as [Hok _]. congruence.
Qed.

Lemma ffmpeg_failure_aborts_witness :
  is_ok (run_pipeline env_ffmpeg_fails (config_of 100) ∅) = false.
Proof.
  apply (ffmpeg_failure_aborts env_ffmpeg_fails (config_of 100) ∅ (1%nat, (20%Q, 30%Q))).
  - vm_compute. apply list_elem_of_further, list_elem_of_here.
  - reflexivity.
  - reflexivity.
Defined.

(** The store fails on every read, or on every write. *)
Definition env_get_fails : env :=
  {| shazam := shazam env_no_match;
     ffmpeg_ok := fun _ => true;
     sqlite_get_ok := fun _ => false;
     sqlite_put_ok := fun _ => true;
     time_time := 1700000000;
     py_repr := fun _ => "";
     completion := fun _ => [] |}.

Definition env_put_fails : env :=
  {| shazam := shazam env_no_match;
     ffmpeg_ok := fun _ => true;
     sqlite_get_ok := fun _ => true;
     sqlite_put_ok := fun _ => false;
     time_time := 1700000000;
     py_repr := fun _ => "";
     completion := fun _ => [] |}.

(** The claim as stated fails: either storage error ends the run. *)
Lemma run_with_storage_errors :
  run_pipeline env_get_fails (config_of 10) ∅ = Raise SqliteError /\
  run_pipeline env_put_fails (config_of 10) ∅ = Raise SqliteError.
Proof. split; vm_compute; reflexivity. Qed.

(** C4 (amended).  A storage error is fatal to the run: when the read of
    the store fails for a window, or the write fails for a window that the
    store did not answer, the run raises and leaves no report. *)
Theorem storage_error_aborts (e : env) (cfg : config) (con : table) (t : task) :
  t ∈ coros_of cfg ->
  sqlite_get_ok e (key_of cfg t) = false \/
  (miss con (key_of cfg t) /\ sqlite_put_ok e (key_of cfg t) = false) ->
  is_ok (run_pipeline e cfg con) = false.
Proof.
  intros Ht Hfail.
  destruct (run_pipeline e cfg con) as [o|] eqn:Hrun; [|done].
  destruct (run_pipeline_ok e cfg con o Hrun t Ht) as [Hget H].
  destruct Hfail as [Hfail|[Hmiss Hfail]]; [congruence|].
  destruct (H Hmiss) as [_ Hput]. congruence.
Qed.

Lemma storage_error_aborts_witness :
  is_ok (run_pipeline env_get_fails (config_of 10) ∅) = false /\
  is_ok (run_pipeline env_put_fails (config_of 10) ∅) = false.
Proof.
  split.
  - apply (storage_error_aborts env_get_fails (config_of 10) ∅ (0%nat, (0%Q, 10%Q))).
    + vm_compute. apply list_elem_of_here.
    + left. reflexivity.
  - apply (storage_error_aborts env_put_fails (config_of 10) ∅ (0%nat, (0%Q, 10%Q))).
    + vm_compute. apply list_elem_of_here.
    + right. split; reflexivity.
Defined.

(** The oracle knows the first window of a recording and no other. *)
Definition env_one_match : env :=
  {| shazam := fun t => if (fst t =? 0)%nat then Ok (resp_T1 80) else shazam env_no_match t;
     ffmpeg_ok := fun _ => true;
     sqlite_get_ok := fun _ => true;
     sqlite_put_ok := fun _ => true;
     time_time := 1700000000;
     py_repr := fun _ => "";
     completion := fun _ => [1%nat] |}.

(** What a run returned, for runs that return. *)
Definition outcome_of (r : exc outcome) : outcome :=
  match r with
  | Ok o => o
  | Raise _ => {| rows := []; cache_after := ∅; recognized := [] |}
  end.

Definition first_outcome : outcome :=
  outcome_of (run_pipeline env_one_match (config_of 45) ∅).

Definition second_outcome : outcome :=
  outcome_of (run_pipeline env_one_match (config_of 45) (cache_after first_outcome)).

Lemma outcome_of_ok (r : exc outcome) : is_ok r = true -> r = Ok (outcome_of r).
Proof. by destruct r. Qed.

Lemma first_run_returns :
  run_pipeline env_one_match (config_of 45) ∅ = Ok first_outcome.
Proof. apply outcome_of_ok. vm_compute. reflexivity. Qed.

Lemma second_run_returns :
  run_pipeline env_one_match (config_of 45) (cache_after first_outcome) = Ok second_outcome.
Proof. apply outcome_of_ok. vm_compute. reflexivity. Qed.

Example first_run_recognized :
  recognized first_outcome =
    [(0%nat, (0%Q, 30%Q)); (1%nat, (20%Q, 25%Q)); (2%nat, (40%Q, 5%Q))] /\
  map row_shazam_track_id (rows first_outcome) = ["T1"].
Proof. vm_compute. done. Qed.

Example second_run_recognized :
  recognized second_outcome = [(1%nat, (20%Q, 25%Q)); (2%nat, (40%Q, 5%Q))] /\
  map row_shazam_track_id (rows second_outcome) = ["T1"].
Proof. vm_compute. done. Qed.

Lemma run_pipeline_calls_witness :
  recognized first_outcome =
    filter (fun t => is_miss ∅ (key_of (config_of 45) t) = true) (coros_of (config_of 45)) /\
  NoDup (recognized first_outcome) /\
  (forall t, t ∈ coros_of (config_of 45) ->
     cache_after first_outcome !! key_of (config_of 45) t =
       if is_miss ∅ (key_of (config_of 45) t) then Some (answer_row env_one_match t)
       else (∅ : table) !! key_of (config_of 45) t) /\
  (forall k, k ∉ map (key_of (config_of 45)) (coros_of (config_of 45)) ->
     cache_after first_outcome !! k = (∅ : table) !! k).
Proof.
  exact (run_pipeline_calls env_one_match (config_of 45) ∅ first_outcome first_run_returns).
Defined.

Lemma second_run_calls_witness :
  recognized second_outcome =
    filter (fun t => is_miss ∅ (key_of (config_of 45) t) &&
                     is_None (answer env_one_match t) = true)
      (coros_of (config_of 45)).
Proof.
  exact (second_run_calls env_one_match (config_of 45) ∅ first_outcome second_outcome
           first_run_returns second_run_returns).
Defined.

Lemma plan_keys_distinct_witness :
  key_of (config_of 45) (0%nat, (0%Q, 30%Q)) <> key_of (config_of 45) (1%nat, (20%Q, 25%Q)).
Proof.
  apply (plan_keys_distinct (config_of 45) 0 1).
  - vm_compute. reflexivity.
  - vm_compute. reflexivity.
  - lia.
Defined.

(** The run over the 45-second recording returns: its three windows go
    through. *)
Example first_run_goes_through :
  forallb (goes_through env_one_match (config_of 45) ∅) (coros_of (config_of 45)) = true.
Proof. vm_compute. reflexivity. Qed.

End Pipeline.

(** ** The tasks of a run, one step at a time *)

Module Scheduler.
Import Py Chunker ShazamRecognizer Store Pipeline.

(** Where a task of [process_one] stands: not yet started by [gather],
    blocked in [async with sem], inside it (the call to the oracle is
    outstanding), or returned. *)
Inductive pc : Type := NotStarted | WaitingSlot | InFlight | Finished.

#[global] Instance pc_eq_dec : EqDecision pc.
Proof. solve_decision. Defined.

(** The event loop between two steps: the shared objects of the run, the
    place of every task, the counter of the semaphore, and the exception
    that ended the run, if any. *)
Record sched : Type := {
  sw : world;
  pcs : list pc;
  sem_value : nat;
  raised : option exn
}.




(** Task [i] is the next to start: the tasks before it have started, and
    the batches before its own have been awaited. *)
Definition startable (l : list pc) (i : nat) : Prop :=
  l !! i = Some NotStarted /\
  (forall j, j < i -> l !! j <> Some NotStarted) /\
  (forall j, j < (i / batch) * batch -> l !! j = Some Finished).

Definition record_call (w : world) (t : task) : world :=
  {| cache := cache w; tracks := tracks w; wavs := wavs w;
     oracle_calls := oracle_calls w ++ [t] |}.

(** One step of the event loop: a task runs from one suspension to the
    next.  A task that starts reads the store and, after a miss, extracts
    its clip; then it enters [async with sem] if the counter is positive
    and waits otherwise.  A waiting task enters when the counter is
    positive.  When the oracle answers, the task leaves [async with sem],
    writes the store and aggregates.  An exception ends the run. *)
Inductive step (e : env) (cfg : config) (coros : list task) : sched -> sched -> Prop :=
| step_start_cached s i t w' :
    raised s = None -> coros !! i = Some t -> startable (pcs s) i ->
    process_one_begin e cfg (sw s) t = Ok (w', false) ->
    step e cfg coros s
      {| sw := w'; pcs := <[i := Finished]> (pcs s);
         sem_value := sem_value s; raised := None |}
| step_start_admitted s i t w' v :
    raised s = None -> coros !! i = Some t -> startable (pcs s) i ->
    process_one_begin e cfg (sw s) t = Ok (w', true) ->
    sem_value s = S v ->
    step e cfg coros s
      {| sw := record_call w' t; pcs := <[i := InFlight]> (pcs s);
         sem_value := v; raised := None |}
| step_start_blocked s i t w' :
    raised s = None -> coros !! i = Some t -> startable (pcs s) i ->
    process_one_begin e cfg (sw s) t = Ok (w', true) ->
    sem_value s = 0 ->
    step e cfg coros s
      {| sw := w'; pcs := <[i := WaitingSlot]> (pcs s);
         sem_value := 0; raised := None |}
| step_start_raise s i t x :
    raised s = None -> coros !! i = Some t -> startable (pcs s) i ->
    process_one_begin e cfg (sw s) t = Raise x ->
    step e cfg coros s
      {| sw := sw s; pcs := <[i := Finished]> (pcs s);
         sem_value := sem_value s; raised := Some x |}
| step_acquire s i t v :
    raised s = None -> coros !! i = Some t -> pcs s !! i = Some WaitingSlot ->
    sem_value s = S v ->
    step e cfg coros s
      {| sw := record_call (sw s) t; pcs := <[i := InFlight]> (pcs s);
         sem_value := v; raised := None |}
| step_complete s i t w' :
    raised s = None -> coros !! i = Some t -> pcs s !! i = Some InFlight ->
    process_one_resume e cfg (sw s) t = Ok w' ->
    step e cfg coros s
      {| sw := w'; pcs := <[i := Finished]> (pcs s);
         sem_value := S (sem_value s); raised := None |}
| step_complete_raise s i t x :
    raised s = None -> coros !! i = Some t -> pcs s !! i = Some InFlight ->
    process_one_resume e cfg (sw s) t = Raise x ->
    step e cfg coros s
      {| sw := sw s; pcs := <[i := Finished]> (pcs s);
         sem_value := S (sem_value s); raised := Some x |}.










(** *** Batches *)










End Scheduler.

(** ** input_resolver.py *)

Module InputResolver.
Import Stdlib.Strings.Ascii.

(** ["/" in s] *)
Fixpoint has_slash (s : string) : bool :=
  match s with
  | EmptyString => false
  | String c s' => if Ascii.eqb c "/"%char then true else has_slash s'
  end.

(** [s.split("/")]: the pieces between the slashes; never an empty
    list. *)
Fixpoint split_slash (s : string) : list string :=
  match s with
  | EmptyString => [EmptyString]
  | String c s' =>
      if Ascii.eqb c "/"%char then EmptyString :: split_slash s'
      else match split_slash s' with
           | [] => [String c EmptyString]
           | piece :: rest => String c piece :: rest
           end
  end.

(** [l[-1]] on a list of strings that is not empty. *)
Definition py_last (l : list string) : string := List.last l EmptyString.

(** [os.getenv(name, "").strip()], with [strip] for [str.strip]. *)
Definition getenv_stripped (strip : string -> string) (environ : gmap string string)
    (name : string) : string :=
  strip (default EmptyString (environ !! name)).

Definition resolve_video_id (strip : string -> string) (environ : gmap string string)
  : string :=
  let ref := getenv_stripped strip environ "GITHUB_REF_NAME" in
  if negb (String.eqb ref EmptyString) &&
     negb (String.eqb ref "main" || String.eqb ref "master")
  then ref
  else
    let repo := getenv_stripped strip environ "GITHUB_REPOSITORY" in
    if negb (String.eqb repo EmptyString) && has_slash repo
    then py_last (split_slash repo)
    else "local".

Lemma split_slash_nonempty s : split_slash s <> [].
Proof.
  destruct s as [|c s]; simpl; [done|].
  destruct (Ascii.eqb c "/"); [done|]. by destruct (split_slash s).
Qed.

Lemma py_last_cons x y l : py_last (x :: y :: l) = py_last (y :: l).
Proof. done. Qed.

Lemma split_slash_whole s : has_slash s = false -> split_slash s = [s].
Proof.
  induction s as [|c s IH]; simpl; [done|].
  destruct (Ascii.eqb c "/"); [done|]. intros H. by rewrite (IH H).
Qed.

Lemma split_slash_one s p : split_slash s = [p] -> has_slash s = false.
Proof.
  revert p. induction s as [|c s IH]; simpl; [done|].
  destruct (Ascii.eqb c "/").
  - intros p H. pose proof (split_slash_nonempty s). by destruct (split_slash s).
  - intros p H. pose proof (split_slash_nonempty s).
    destruct (split_slash s) as [|q [|q' r]] eqn:E; [done| |done].
    by apply (IH q).
Qed.

(** The last piece of a string with a slash is what follows its last
    slash. *)
Lemma last_piece s :
  has_slash s = true ->
  exists owner, s = owner +:+ "/" +:+ py_last (split_slash s) /\
                has_slash (py_last (split_slash s)) = false.
Proof.
  induction s as [|c s IH]; simpl; [done|].
  destruct (Ascii.eqb c "/") eqn:Ec.
  - apply Ascii.eqb_eq in Ec. subst c. intros _.
    destruct (has_slash s) eqn:Hs.
    + destruct (IH eq_refl) as (owner & Heq & Hno).
      exists (String "/" owner).
      pose proof (split_slash_nonempty s) as Hne.
      destruct (split_slash s) as [|p rest] eqn:Es; [done|].
      rewrite py_last_cons. split; [|done].
      exact (f_equal (String "/"%char) Heq).
    + exists EmptyString. rewrite (split_slash_whole s Hs). simpl. done.
  - intros Hs. destruct (IH Hs) as (owner & Heq & Hno).
    exists (String c owner).
    pose proof (split_slash_nonempty s) as Hne.
    destruct (split_slash s) as [|p rest] eqn:Es; [done|].
    destruct rest as [|p' rest].
    + exfalso. rewrite (split_slash_one s p Es) in Hs. done.
    + rewrite py_last_cons. rewrite py_last_cons in Heq, Hno.
      split; [|done]. exact (f_equal (String c) Heq).
Qed.

(** The branch names that do not name a video. *)
Definition no_video_branch (ref : string) : bool :=
  String.eqb ref EmptyString || String.eqb ref "main" || String.eqb ref "master".

(** A branch other than [main] and [master] names the video, slashes
    included.  Otherwise a repository name with a slash gives what follows
    its last slash, which holds no slash and is empty for a name that ends
    in one; and without a repository name with a slash the id is
    ["local"]. *)
Theorem resolve_video_id_cases (strip : string -> string) (environ : gmap string string) :
  (no_video_branch (getenv_stripped strip environ "GITHUB_REF_NAME") = false ->
   resolve_video_id strip environ = getenv_stripped strip environ "GITHUB_REF_NAME") /\
  (no_video_branch (getenv_stripped strip environ "GITHUB_REF_NAME") = true ->
   has_slash (getenv_stripped strip environ "GITHUB_REPOSITORY") = true ->
   (exists owner,
      getenv_stripped strip environ "GITHUB_REPOSITORY" =
        owner +:+ "/" +:+ resolve_video_id strip environ) /\
   has_slash (resolve_video_id strip environ) = false) /\
  (no_video_branch (getenv_stripped strip environ "GITHUB_REF_NAME") = true ->
   has_slash (getenv_stripped strip environ "GITHUB_REPOSITORY") = false ->
   resolve_video_id strip environ = "local").
Proof.
  unfold resolve_video_id, no_video_branch.
  set (ref := getenv_stripped strip environ "GITHUB_REF_NAME").
  set (repo := getenv_stripped strip environ "GITHUB_REPOSITORY").
  assert (Hrepo : has_slash repo = true ->
            (exists owner,
               repo = owner +:+ "/" +:+
                 (if negb (String.eqb repo EmptyString) && has_slash repo
                  then py_last (split_slash repo) else "local")) /\
            has_slash (if negb (String.eqb repo EmptyString) && has_slash repo
                       then py_last (split_slash repo) else "local") = false).
  { intros Hs. rewrite Hs.
    destruct (String.eqb repo EmptyString) eqn:Er.
    { apply String.eqb_eq in Er. rewrite Er in Hs. discriminate. }
    cbn [negb andb]. destruct (last_piece repo Hs) as (owner & Heq & Hno).
    split; [by exists owner|done]. }
  destruct (String.eqb ref EmptyString) eqn:E1; cbn [negb andb orb].
  - split; [discriminate|]. split; [by intros _|].
    intros _ Hs. rewrite Hs. by rewrite andb_false_r.
  - destruct (String.eqb ref "main" || String.eqb ref "master") eqn:E2; cbn [negb].
    + split; [discriminate|]. split; [by intros _|].
      intros _ Hs. rewrite Hs. by rewrite andb_false_r.
    + split; [done|]. split; discriminate.
Qed.

Example resolve_video_id_examples :
  resolve_video_id id {[ "GITHUB_REF_NAME" := "dQw4w9WgXcQ";
                         "GITHUB_REPOSITORY" := "owner/repo" ]} = "dQw4w9WgXcQ" /\
  resolve_video_id id {[ "GITHUB_REF_NAME" := "main";
                         "GITHUB_REPOSITORY" := "owner/repo" ]} = "repo" /\
  resolve_video_id id {[ "GITHUB_REF_NAME" := "feature/x" ]} = "feature/x" /\
  resolve_video_id id {[ "GITHUB_REPOSITORY" := "owner/" ]} = EmptyString /\
  resolve_video_id id ∅ = "local".
Proof. vm_compute. done. Qed.

End InputResolver.
